(** * orangetheory: the snippet pattern of [orangetheory.go]

    The program declares the grammar of an Orangetheory workout e-mail
    snippet as the struct [snippet] (one [regexp] tag per field), compiles
    it once with [restructure.MustCompile], applies it to every message
    snippet with [snippetParser.Find], sorts the matched records by a date
    key and prints them.

    Strings.  A Go string is a byte sequence that [regexp] reads rune by
    rune as UTF-8.  The snippets come out of the JSON decoder of the Gmail
    client and so are valid UTF-8; a string is represented here by the
    sequence of its runes (code points).  Concatenation, prefixes and the
    lexicographic order of valid UTF-8 strings are those of their rune
    sequences.

    Library.  [restructure] joins the patterns of the fields in declaration
    order, wraps the pattern of every exported field in a capture and hands
    the result to Go's [regexp]; [Find] calls [FindSubmatchIndex], the
    leftmost-first unanchored search, and stores every capture in the field
    of the same name. *)

From Stdlib Require Import String Ascii NArith Arith Bool Lia List.
From Stdlib Require Import Permutation Sorted.
Import ListNotations.
Local Open Scope N_scope.
Local Open Scope list_scope.

Set Implicit Arguments.

(** ** Strings *)

Definition rune := N.
Definition gostring := list rune.

(** The runes of an ASCII literal (one rune for each character). *)
Definition str (s : string) : gostring :=
  map N_of_ascii (list_ascii_of_string s).

(** ** The schema: [type snippet struct] *)

Record FieldSpec := field { fname : string; ftag : string }.

(** The fields in the order of declaration.  [ftag] is the text between the
    quotes of the [regexp] tag, as it is written in the source file. *)
Definition snippet_fields : list FieldSpec :=
  [ field "_"                "STUDIO WORKOUT SUMMARY "
  ; field "City"             "\\w+"
  ; field "_"                ", "
  ; field "State"            "\\w+"
  ; field "_"                " "
  ; field "Month"            "\\d+"
  ; field "_"                "/"
  ; field "Day"              "\\d+"
  ; field "_"                "/"
  ; field "Year"             "\\d+"
  ; field "_"                " "
  ; field "Hour"             "\\d+"
  ; field "_"                "\u200c:"
  ; field "Minute"           "\\d+"
  ; field "_"                " "
  ; field "AMPM"             "\\w{2}"
  ; field "_"                " "
  ; field "Instructor"       "\\w+"
  ; field "_"                " "
  ; field "Zone1"            "\\d+"
  ; field "_"                " "
  ; field "Zone2"            "\\d+"
  ; field "_"                " "
  ; field "Zone3"            "\\d+"
  ; field "_"                " "
  ; field "Zone4"            "\\d+"
  ; field "_"                " "
  ; field "Zone5"            "\\d+"
  ; field "_"                " MINUTES / ZONE "
  ; field "Calories"         "\\d+"
  ; field "_"                " CALORIES BURNED "
  ; field "SplatPoints"      "\\d+"
  ; field "_"                " SPLAT POINTS "
  ; field "AverageHeartRate" "\\d+"
  ; field "_"                " AVG. HEART-RATE Peak HR: "
  ; field "PeakHeartRate"    "\\d+"
  ].

(** ** Struct tags: [strconv.Unquote]

    [reflect.StructTag.Get] unquotes the tag value as a Go string literal.
    The escapes of the interpreted literal that denote a rune are modelled;
    an escape that denotes a raw byte, a [\u] escape of a surrogate half
    (not a valid rune), a bare quote, a newline or a non-ASCII source byte
    gives [None]. *)

Definition hex_digit (c : N) : option N :=
  if (48 <=? c) && (c <=? 57) then Some (c - 48)
  else if (97 <=? c) && (c <=? 102) then Some (c - 87)
  else if (65 <=? c) && (c <=? 70) then Some (c - 55)
  else None.

(** [utf8.ValidRune] below U+10000: every value but the surrogate halves. *)
Definition valid_rune (r : rune) : bool := negb ((55296 <=? r) && (r <=? 57343)).

Definition hex4 (a b c d : N) : option rune :=
  match hex_digit a, hex_digit b, hex_digit c, hex_digit d with
  | Some x, Some y, Some z, Some w =>
      let r := ((x * 16 + y) * 16 + z) * 16 + w in
      if valid_rune r then Some r else None
  | _, _, _, _ => None
  end.

(** The single-character escapes a b f n r t v, backslash and quote. *)
Definition escape (c : N) : option rune :=
  match c with
  | 97 => Some 7
  | 98 => Some 8
  | 102 => Some 12
  | 110 => Some 10
  | 114 => Some 13
  | 116 => Some 9
  | 118 => Some 11
  | 92 => Some 92
  | 34 => Some 34
  | _ => None
  end.

Definition opt_cons {A} (x : A) (o : option (list A)) : option (list A) :=
  match o with Some l => Some (x :: l) | None => None end.

Fixpoint unquote (s : list N) : option gostring :=
  match s with
  | [] => Some []
  | c :: rest =>
      if c =? 92 then
        match rest with
        | [] => None
        | e :: rest1 =>
            if e =? 117 then
              match rest1 with
              | a :: b :: c' :: d :: rest2 =>
                  match hex4 a b c' d with
                  | Some r => opt_cons r (unquote rest2)
                  | None => None
                  end
              | _ => None
              end
            else
              match escape e with
              | Some r => opt_cons r (unquote rest1)
              | None => None
              end
        end
      else if (c =? 34) || (c =? 10) || (128 <=? c) then None
      else opt_cons c (unquote rest)
  end.

Definition Unquote (tag : string) : option gostring := unquote (str tag).

(** ** Patterns: the fragment of [regexp/syntax] (Perl flags) in use

    Literal runes, [.] (any rune but newline, the flag [DotNL] being off),
    the Perl classes [\w] and [\d], a backslash before ASCII punctuation,
    and the greedy postfix operators [+] and [{n}] on one such atom.
    Anything else gives [None]: both what the library rejects and what it
    accepts outside this fragment (alternation, groups, classes in
    brackets, [*], [?], [{n,m}], a brace that is no repetition, other
    escapes).  A pattern with a result is a pattern of the fragment. *)

Inductive class := Word | Digit.
Inductive atom := Lit (c : rune) | AnyNotNL | Cls (k : class).
Inductive quant := One | Plus | Exactly (n : nat).
Definition piece := (atom * quant)%type.

Definition is_digit (c : rune) : bool := (48 <=? c) && (c <=? 57).
Definition is_upper (c : rune) : bool := (65 <=? c) && (c <=? 90).
Definition is_lower (c : rune) : bool := (97 <=? c) && (c <=? 122).
(** [\w] is [[0-9A-Za-z_]]. *)
Definition is_word (c : rune) : bool :=
  is_digit c || is_upper c || is_lower c || (c =? 95).

Definition is_punct (c : rune) : bool :=
  ((33 <=? c) && (c <=? 47)) || ((58 <=? c) && (c <=? 64)) ||
  ((91 <=? c) && (c <=? 96)) || ((123 <=? c) && (c <=? 126)).

(** [* + ? ( ) [ ] { } | ^ $]: operators, not literals. *)
Definition is_meta (c : rune) : bool :=
  existsb (N.eqb c) [42; 43; 63; 40; 41; 91; 93; 123; 125; 124; 94; 36].

Definition parse_atom (s : gostring) : option (atom * gostring) :=
  match s with
  | [] => None
  | c :: rest =>
      if c =? 92 then
        match rest with
        | [] => None
        | e :: rest1 =>
            if e =? 119 then Some (Cls Word, rest1)
            else if e =? 100 then Some (Cls Digit, rest1)
            else if is_punct e then Some (Lit e, rest1)
            else None
        end
      else if c =? 46 then Some (AnyNotNL, rest)
      else if is_meta c then None
      else Some (Lit c, rest)
  end.

(** The decimal number at the head of [s], at most [fuel] digits. *)
Fixpoint parse_int (fuel : nat) (acc : nat) (s : gostring) : nat * gostring :=
  match fuel, s with
  | S fuel', c :: rest =>
      if is_digit c then parse_int fuel' (10 * acc + N.to_nat (c - 48)) rest
      else (acc, s)
  | _, _ => (acc, s)
  end.

(** A count of two digits or more may not begin with 0: the library then
    reads the brace as literal text, which is outside the fragment. *)
Definition leading_zero (s : gostring) : bool :=
  match s with
  | 48 :: d :: _ => is_digit d
  | _ => false
  end.

Definition parse_quant (s : gostring) : option (quant * gostring) :=
  match s with
  | 43 :: rest => Some (Plus, rest)
  | 123 :: (d :: _) as rest =>
      if is_digit d && negb (leading_zero rest) then
        match parse_int 4 0 rest with
        | (n, 125 :: rest1) => if (n <=? 1000)%nat then Some (Exactly n, rest1) else None
        | _ => None
        end
      else None
  | 123 :: [] => None
  | _ => Some (One, s)
  end.

Fixpoint parse (fuel : nat) (s : gostring) : option (list piece) :=
  match s with
  | [] => Some []
  | _ :: _ =>
      match fuel with
      | O => None
      | S fuel' =>
          match parse_atom s with
          | None => None
          | Some (a, rest) =>
              match parse_quant rest with
              | None => None
              | Some (q, rest1) => opt_cons (a, q) (parse fuel' rest1)
              end
          end
      end
  end.

Definition Parse (pattern : gostring) : option (list piece) :=
  parse (length pattern) pattern.

(** ** [restructure.Compile] *)

Record group := { g_name : option string; g_pat : list piece }.
Definition Regexp := list group.

(** A field is exported when its name begins with an upper-case letter; the
    blank field [_] is not. *)
Definition isExported (name : string) : bool :=
  match name with
  | String c _ => is_upper (N_of_ascii c)
  | EmptyString => false
  end.

(** A tag whose value does not unquote, or is empty, is an error of
    [restructure.Compile] (incorrectly escaped struct tag). *)
Definition compile_field (f : FieldSpec) : option group :=
  match Unquote (ftag f) with
  | None => None
  | Some [] => None
  | Some pattern =>
      match Parse pattern with
      | None => None
      | Some ps =>
          Some {| g_name := if isExported (fname f) then Some (fname f) else None;
                  g_pat := ps |}
      end
  end.

Fixpoint Compile (fs : list FieldSpec) : option Regexp :=
  match fs with
  | [] => Some []
  | f :: fs' =>
      match compile_field f with
      | None => None
      | Some g => opt_cons g (Compile fs')
      end
  end.

(** [var snippetParser = restructure.MustCompile(snippet{}, restructure.Options{})];
    [MustCompile] panics when [Compile] fails, which [snippetParser_compiled]
    below excludes. *)
Definition snippetParser : Regexp :=
  Eval vm_compute in
    match Compile snippet_fields with Some re => re | None => [] end.

(** ** Matching: Go's leftmost-first semantics

    A backtracking matcher in continuation-passing style: [k] is what has to
    match after the current piece, and the first success in priority order
    is the result.  A greedy [+] prefers one more repetition to stopping. *)

Definition atom_match (a : atom) (c : rune) : bool :=
  match a with
  | Lit l => c =? l
  | AnyNotNL => negb (c =? 10)
  | Cls Word => is_word c
  | Cls Digit => is_digit c
  end.

Section Backtracking.
Variable R : Type.

Definition one_k (a : atom) (s : gostring) (k : gostring -> option R) : option R :=
  match s with
  | c :: s' => if atom_match a c then k s' else None
  | [] => None
  end.

Fixpoint plus_k (a : atom) (s : gostring) (k : gostring -> option R) : option R :=
  match s with
  | c :: s' =>
      if atom_match a c then
        match plus_k a s' k with
        | Some r => Some r
        | None => k s'
        end
      else None
  | [] => None
  end.

Fixpoint rep_k (n : nat) (a : atom) (s : gostring) (k : gostring -> option R) : option R :=
  match n with
  | O => k s
  | S n' => one_k a s (fun s' => rep_k n' a s' k)
  end.

Definition m_piece (p : piece) (s : gostring) (k : gostring -> option R) : option R :=
  match snd p with
  | One => one_k (fst p) s k
  | Plus => plus_k (fst p) s k
  | Exactly n => rep_k n (fst p) s k
  end.

Fixpoint m_pieces (ps : list piece) (s : gostring) (k : gostring -> option R) : option R :=
  match ps with
  | [] => k s
  | p :: ps' => m_piece p s (fun s' => m_pieces ps' s' k)
  end.
End Backtracking.

(** The captures of a match, in the order of the fields: name and text. *)
Definition captures := list (string * gostring).

(** The text between two positions, given as the suffixes that start there. *)
Definition slice (from to : gostring) : gostring :=
  firstn (length from - length to) from.

Definition add_capture (g : group) (from to : gostring) (caps : captures) : captures :=
  match g_name g with
  | Some n => (n, slice from to) :: caps
  | None => caps
  end.

(** The match of the whole expression at the start of [s]: the captures and
    the input left over. *)
Fixpoint m_groups (gs : Regexp) (s : gostring) (caps : captures)
  : option (captures * gostring) :=
  match gs with
  | [] => Some (rev caps, s)
  | g :: gs' =>
      m_pieces (g_pat g) s (fun s' => m_groups gs' s' (add_capture g s s' caps))
  end.

Definition match_here (re : Regexp) (s : gostring) : option (captures * gostring) :=
  m_groups re s [].

(** [regexp.FindSubmatchIndex], which [Find] calls: the leftmost match.  The
    expression is tried at every position from left to right, the end of
    the input included; nothing ties it to the start of the input (a struct
    that wants that declares a field with the pattern [^], and [snippet]
    has none). *)
Fixpoint FindSubmatch (re : Regexp) (s : gostring) : option captures :=
  match match_here re s with
  | Some (caps, _) => Some caps
  | None =>
      match s with
      | [] => None
      | _ :: s' => FindSubmatch re s'
      end
  end.

(** ** The struct and [Find] *)

Record snippet := {
  City : gostring;
  State : gostring;
  Month : gostring;
  Day : gostring;
  Year : gostring;
  Hour : gostring;
  Minute : gostring;
  AMPM : gostring;
  Instructor : gostring;
  Zone1 : gostring;
  Zone2 : gostring;
  Zone3 : gostring;
  Zone4 : gostring;
  Zone5 : gostring;
  Calories : gostring;
  SplatPoints : gostring;
  AverageHeartRate : gostring;
  PeakHeartRate : gostring
}.

(** [var snippet snippet]: every field the empty string. *)
Definition zero_snippet : snippet :=
  Build_snippet [] [] [] [] [] [] [] [] [] [] [] [] [] [] [] [] [] [].

Definition snippet_names : list string :=
  [ "City"; "State"; "Month"; "Day"; "Year"; "Hour"; "Minute"; "AMPM";
    "Instructor"; "Zone1"; "Zone2"; "Zone3"; "Zone4"; "Zone5"; "Calories";
    "SplatPoints"; "AverageHeartRate"; "PeakHeartRate" ]%string.

(** Assignment to the field called [name]. *)
Definition set_field (name : string) (v : gostring) (d : snippet) : snippet :=
  let pick n old := if String.eqb name n then v else old in
  {| City := pick "City"%string (City d);
     State := pick "State"%string (State d);
     Month := pick "Month"%string (Month d);
     Day := pick "Day"%string (Day d);
     Year := pick "Year"%string (Year d);
     Hour := pick "Hour"%string (Hour d);
     Minute := pick "Minute"%string (Minute d);
     AMPM := pick "AMPM"%string (AMPM d);
     Instructor := pick "Instructor"%string (Instructor d);
     Zone1 := pick "Zone1"%string (Zone1 d);
     Zone2 := pick "Zone2"%string (Zone2 d);
     Zone3 := pick "Zone3"%string (Zone3 d);
     Zone4 := pick "Zone4"%string (Zone4 d);
     Zone5 := pick "Zone5"%string (Zone5 d);
     Calories := pick "Calories"%string (Calories d);
     SplatPoints := pick "SplatPoints"%string (SplatPoints d);
     AverageHeartRate := pick "AverageHeartRate"%string (AverageHeartRate d);
     PeakHeartRate := pick "PeakHeartRate"%string (PeakHeartRate d) |}.

(** [inflateStruct]: every capture is stored in the field of its name; on a
    capture that cannot be stored [Find] panics. *)
Fixpoint inflateStruct (d : snippet) (caps : captures) : option snippet :=
  match caps with
  | [] => Some d
  | (n, v) :: caps' =>
      if existsb (String.eqb n) snippet_names
      then inflateStruct (set_field n v d) caps'
      else None
  end.

Inductive outcome :=
| Matched (r : snippet)
| NotMatched
| Panicked.

(** [matched := re.Find(&dest, s)]: the flag and the struct afterwards, or
    [None] for a panic. *)
Definition Find (re : Regexp) (dest : snippet) (s : gostring) : option (bool * snippet) :=
  match FindSubmatch re s with
  | None => Some (false, dest)
  | Some caps =>
      match inflateStruct dest caps with
      | Some d => Some (true, d)
      | None => None
      end
  end.

(** The body of the loop of [main]: a fresh struct, [Find], and the test of
    the flag. *)
Definition match_snippet (s : gostring) : outcome :=
  match Find snippetParser zero_snippet s with
  | Some (true, d) => Matched d
  | Some (false, _) => NotMatched
  | None => Panicked
  end.

(** The loop of [main] over the fetched snippets: a snippet that does not
    match is skipped. *)
Fixpoint collect (msgs : list gostring) (acc : list snippet) : option (list snippet) :=
  match msgs with
  | [] => Some acc
  | m :: msgs' =>
      match match_snippet m with
      | Matched d => collect msgs' (acc ++ [d])
      | NotMatched => collect msgs' acc
      | Panicked => None
      end
  end.

(** ** Sorting by date *)

(** [a < b] on strings: the lexicographic order, which on valid UTF-8 is
    the same for bytes and for runes. *)
Fixpoint str_lt (a b : gostring) : bool :=
  match a, b with
  | _, [] => false
  | [], _ :: _ => true
  | x :: a', y :: b' =>
      if x <? y then true else if y <? x then false else str_lt a' b'
  end.

(** [fmt.Sprintf("%s-%s-%s", s.Year, s.Month, s.Day)] *)
Definition date_key (s : snippet) : gostring :=
  Year s ++ str "-" ++ Month s ++ str "-" ++ Day s.

Definition date_less (si sj : snippet) : bool :=
  str_lt (date_key si) (date_key sj).

Section InsertionSort.
Variable A : Type.
Variable less : A -> A -> bool.

(** The inner loop of [insertionSort]: the new element moves left past
    every element it is less than.  [before] is the sorted part, nearest
    element first. *)
Fixpoint sift (x : A) (before : list A) : list A :=
  match before with
  | y :: before' => if less x y then y :: sift x before' else x :: before
  | [] => [x]
  end.

Definition insertionSort (l : list A) : list A :=
  rev (fold_left (fun before x => sift x before) l []).
End InsertionSort.

(** [sort.Slice(snippets, ...)]; on a slice of fewer than seven elements
    [sort.Slice] is [insertionSort]. *)
Definition sort_by_date (l : list snippet) : list snippet :=
  insertionSort date_less l.

(** ** The example of the source comment *)

Definition zwnj : rune := 8204.

(** The example above [type snippet], which has U+200C before the colon. *)
Definition example_snippet : gostring :=
  str "STUDIO WORKOUT SUMMARY Bothell, WA 06/13/2021 12" ++ [zwnj] ++
  str ":15 PM Tiffany 15 0 0 0 0 MINUTES / ZONE 55 CALORIES BURNED 0 SPLAT POINTS 75 AVG. HEART-RATE Peak HR: 80".

(** The same text with a plain colon between hour and minute. *)
Definition example_plain_colon : gostring :=
  str "STUDIO WORKOUT SUMMARY Bothell, WA 06/13/2021 12:15 PM Tiffany 15 0 0 0 0 MINUTES / ZONE 55 CALORIES BURNED 0 SPLAT POINTS 75 AVG. HEART-RATE Peak HR: 80".

Definition example_record : snippet :=
  {| City := str "Bothell"; State := str "WA";
     Month := str "06"; Day := str "13"; Year := str "2021";
     Hour := str "12"; Minute := str "15"; AMPM := str "PM";
     Instructor := str "Tiffany";
     Zone1 := str "15"; Zone2 := str "0"; Zone3 := str "0";
     Zone4 := str "0"; Zone5 := str "0";
     Calories := str "55"; SplatPoints := str "0";
     AverageHeartRate := str "75"; PeakHeartRate := str "80" |}.

(** ** A deterministic reading of the same expressions

    Where every [+] is followed by an atom that shares no rune with it (or
    by nothing at all), backtracking never changes the outcome and the
    expression is matched from left to right, each [+] taking the longest
    run.  [d_tokens] is that matcher; it returns the text of every group. *)

Fixpoint span (p : rune -> bool) (s : gostring) : gostring * gostring :=
  match s with
  | c :: s' => if p c then let (a, b) := span p s' in (c :: a, b) else ([], s)
  | [] => ([], [])
  end.

Fixpoint d_rep (n : nat) (a : atom) (s : gostring) : option (gostring * gostring) :=
  match n with
  | O => Some ([], s)
  | S n' =>
      match s with
      | c :: s' =>
          if atom_match a c then
            match d_rep n' a s' with
            | Some (t, r) => Some (c :: t, r)
            | None => None
            end
          else None
      | [] => None
      end
  end.

Definition d_piece (p : piece) (s : gostring) : option (gostring * gostring) :=
  match snd p with
  | One => d_rep 1 (fst p) s
  | Plus =>
      match span (atom_match (fst p)) s with
      | ([], _) => None
      | (t, r) => Some (t, r)
      end
  | Exactly n => d_rep n (fst p) s
  end.

Fixpoint d_pieces (ps : list piece) (s : gostring) : option (gostring * gostring) :=
  match ps with
  | [] => Some ([], s)
  | p :: ps' =>
      match d_piece p s with
      | Some (t1, r1) =>
          match d_pieces ps' r1 with
          | Some (t2, r2) => Some (t1 ++ t2, r2)
          | None => None
          end
      | None => None
      end
  end.

Fixpoint d_tokens (gs : Regexp) (s : gostring) : option (list gostring * gostring) :=
  match gs with
  | [] => Some ([], s)
  | g :: gs' =>
      match d_pieces (g_pat g) s with
      | Some (t, r) =>
          match d_tokens gs' r with
          | Some (ts, rest) => Some (t :: ts, rest)
          | None => None
          end
      | None => None
      end
  end.

(** The captures that the texts of the groups give. *)
Fixpoint caps_of (gs : Regexp) (toks : list gostring) : captures :=
  match gs, toks with
  | g :: gs', t :: toks' =>
      match g_name g with
      | Some n => (n, t) :: caps_of gs' toks'
      | None => caps_of gs' toks'
      end
  | _, _ => []
  end.

Definition flat (gs : Regexp) : list piece := concat (map (@g_pat) gs).

Definition first_atom (ps : list piece) : option atom :=
  match ps with
  | (a, _) :: _ => Some a
  | [] => None
  end.

Definition atom_disjoint (a a' : atom) : bool :=
  match a, a' with
  | Lit c, _ => negb (atom_match a' c)
  | _, Lit c => negb (atom_match a c)
  | _, _ => false
  end.

Definition nonzero (q : quant) : bool :=
  match q with
  | Exactly O => false
  | _ => true
  end.

(** No piece is empty, and what follows a [+] cannot begin with a rune of
    that [+]. *)
Fixpoint wf_pieces (ps : list piece) : bool :=
  match ps with
  | [] => true
  | (a, q) :: ps' =>
      nonzero q &&
      match q, first_atom ps' with
      | Plus, Some a' => atom_disjoint a a'
      | _, _ => true
      end &&
      wf_pieces ps'
  end.

(** What a continuation is known to do: it fails on every input that
    begins with a rune outside [a'], or it never fails. *)
Definition guarded (R : Type) (fa : option atom) (k : gostring -> option R) : Prop :=
  match fa with
  | Some a' => forall c s', atom_match a' c = false -> k (c :: s') = None
  | None => forall s, k s <> None
  end.

(** Every group matches its text when the texts that follow are put after
    it. *)
Fixpoint steps_ok (gs : Regexp) (toks : list gostring) (rest : gostring) : Prop :=
  match gs, toks with
  | [], [] => True
  | g :: gs', t :: toks' =>
      d_pieces (g_pat g) (t ++ (concat toks' ++ rest)) =
        Some (t, concat toks' ++ rest) /\
      steps_ok gs' toks' rest
  | _, _ => False
  end.

(** ** The grammar of a snippet, as a specification *)

Definition digits (t : gostring) : Prop := t <> [] /\ forallb is_digit t = true.
Definition word (t : gostring) : Prop := t <> [] /\ forallb is_word t = true.
Definition word2 (t : gostring) : Prop := length t = 2%nat /\ forallb is_word t = true.

Record well_formed (r : snippet) : Prop := {
  wf_City : word (City r);
  wf_State : word (State r);
  wf_Month : digits (Month r);
  wf_Day : digits (Day r);
  wf_Year : digits (Year r);
  wf_Hour : digits (Hour r);
  wf_Minute : digits (Minute r);
  wf_AMPM : word2 (AMPM r);
  wf_Instructor : word (Instructor r);
  wf_Zone1 : digits (Zone1 r);
  wf_Zone2 : digits (Zone2 r);
  wf_Zone3 : digits (Zone3 r);
  wf_Zone4 : digits (Zone4 r);
  wf_Zone5 : digits (Zone5 r);
  wf_Calories : digits (Calories r);
  wf_SplatPoints : digits (SplatPoints r);
  wf_AverageHeartRate : digits (AverageHeartRate r);
  wf_PeakHeartRate : digits (PeakHeartRate r)
}.

Definition header : gostring := str "STUDIO WORKOUT SUMMARY ".

(** The texts of the thirty-six fields of a snippet that holds the record
    [r]; [dot] is the rune that the [.] of [AVG.] stands for. *)
Definition tokens_of (r : snippet) (dot : rune) : list gostring :=
  [ str "STUDIO WORKOUT SUMMARY "; City r; str ", "; State r; str " ";
    Month r; str "/"; Day r; str "/"; Year r; str " ";
    Hour r; zwnj :: str ":"; Minute r; str " "; AMPM r; str " ";
    Instructor r; str " "; Zone1 r; str " "; Zone2 r; str " "; Zone3 r;
    str " "; Zone4 r; str " "; Zone5 r; str " MINUTES / ZONE ";
    Calories r; str " CALORIES BURNED "; SplatPoints r;
    str " SPLAT POINTS "; AverageHeartRate r;
    str " AVG" ++ dot :: str " HEART-RATE Peak HR: "; PeakHeartRate r ].

Definition render (r : snippet) (dot : rune) : gostring :=
  concat (tokens_of r dot).

(** The captures of a snippet that holds the record [r]. *)
Definition fields_of (r : snippet) : captures :=
  [ ("City", City r); ("State", State r); ("Month", Month r); ("Day", Day r);
    ("Year", Year r); ("Hour", Hour r); ("Minute", Minute r);
    ("AMPM", AMPM r); ("Instructor", Instructor r); ("Zone1", Zone1 r);
    ("Zone2", Zone2 r); ("Zone3", Zone3 r); ("Zone4", Zone4 r);
    ("Zone5", Zone5 r); ("Calories", Calories r);
    ("SplatPoints", SplatPoints r);
    ("AverageHeartRate", AverageHeartRate r);
    ("PeakHeartRate", PeakHeartRate r) ]%string.

(** The input left over does not begin with a digit. *)
Definition no_digit_ahead (rest : gostring) : Prop :=
  match rest with
  | [] => True
  | c :: _ => is_digit c = false
  end.

(** [p] is a prefix of [s]; [p] occurs in [s]. *)
Fixpoint prefixb (p s : gostring) : bool :=
  match p, s with
  | [], _ => true
  | x :: p', y :: s' => (x =? y) && prefixb p' s'
  | _ :: _, [] => false
  end.

Fixpoint infixb (p s : gostring) : bool :=
  prefixb p s ||
  match s with
  | [] => false
  | _ :: s' => infixb p s'
  end.

(** The texts of the anonymous fields of the struct. *)
Definition separators : list gostring :=
  flat_map (fun f =>
              if isExported (fname f) then []
              else match Unquote (ftag f) with
                   | Some t => [t]
                   | None => []
                   end)
           snippet_fields.

(** ** The positions of the expression

    The runes that a match can hold one after the other are those that a
    small automaton reads: its states are the pieces still to come, a [+]
    being one mandatory repetition [IOne] and a loop [IStar] that may be
    left at any time. *)

Inductive item := IOne (a : atom) | IStar (a : atom).

Fixpoint expand (ps : list piece) : list item :=
  match ps with
  | [] => []
  | (a, One) :: ps' => IOne a :: expand ps'
  | (a, Plus) :: ps' => IOne a :: IStar a :: expand ps'
  | (a, Exactly n) :: ps' => repeat (IOne a) n ++ expand ps'
  end.

(** The states after one rune. *)
Fixpoint step (q : list item) (c : rune) : list (list item) :=
  match q with
  | [] => []
  | IOne a :: q' => if atom_match a c then [q'] else []
  | IStar a :: q' => (if atom_match a c then [q] else []) ++ step q' c
  end.

(** Some run of the automaton from [q] reads all of [w]. *)
Fixpoint can_read (w : gostring) (q : list item) : bool :=
  match w with
  | [] => true
  | c :: w' => existsb (can_read w') (step q c)
  end.

Fixpoint suffixes (A : Type) (l : list A) : list (list A) :=
  l :: match l with
       | [] => []
       | _ :: l' => suffixes l'
       end.

(** [reads q w q']: a run from [q] reads [w] and ends in [q']. *)
Inductive reads : list item -> gostring -> list item -> Prop :=
| reads_nil q : reads q [] q
| reads_one a q c w q' :
    atom_match a c = true -> reads q w q' -> reads (IOne a :: q) (c :: w) q'
| reads_loop a q c w q' :
    atom_match a c = true -> reads (IStar a :: q) w q' ->
    reads (IStar a :: q) (c :: w) q'
| reads_exit a q w q' : reads q w q' -> reads (IStar a :: q) w q'.

(** ** More inputs *)

(** The example with [AVG!] for [AVG.], and with CALORIES misspelled. *)
Definition example_avg_altered : gostring :=
  str "STUDIO WORKOUT SUMMARY Bothell, WA 06/13/2021 12" ++ [zwnj] ++
  str ":15 PM Tiffany 15 0 0 0 0 MINUTES / ZONE 55 CALORIES BURNED 0 SPLAT POINTS 75 AVG! HEART-RATE Peak HR: 80".

Definition example_calories_misspelled : gostring :=
  str "STUDIO WORKOUT SUMMARY Bothell, WA 06/13/2021 12" ++ [zwnj] ++
  str ":15 PM Tiffany 15 0 0 0 0 MINUTES / ZONE 55 CALORIEZ BURNED 0 SPLAT POINTS 75 AVG. HEART-RATE Peak HR: 80".

(** A snippet that begins with a two-word city, followed by a whole
    snippet. *)
Definition example_two_headers : gostring :=
  header ++ str "New York" ++ str ", " ++ str "NY " ++ example_snippet.

(** A record of 2021 with the given month and day. *)
Definition record_of_month (m d : string) : snippet :=
  {| City := str "Bothell"; State := str "WA";
     Month := str m; Day := str d; Year := str "2021";
     Hour := str "12"; Minute := str "15"; AMPM := str "PM";
     Instructor := str "Tiffany";
     Zone1 := str "15"; Zone2 := str "0"; Zone3 := str "0";
     Zone4 := str "0"; Zone5 := str "0";
     Calories := str "55"; SplatPoints := str "0";
     AverageHeartRate := str "75"; PeakHeartRate := str "80" |}.

(** ** The rest of [main]: the report

    After the loop and the sort, [main] writes a header and one row for each
    record with [encoding/csv]; [csv_Write] is the [Write] of a [csv.Writer] with
    the settings of [csv.NewWriter] (comma [,], no CRLF), as the runes it
    hands to the output. *)

(** The records of the snippets that match, in the order of the messages. *)
Definition matched_records (msgs : list gostring) : list snippet :=
  flat_map (fun m => match match_snippet m with
                     | Matched r => [r]
                     | _ => []
                     end) msgs.

Definition csv_header : list gostring :=
  map str [ "Date"; "Time"; "Zone 1"; "Zone 2"; "Zone 3"; "Zone 4"; "Zone 5";
            "Calories"; "Average Heart Rate"; "Peak Heart Rate"; "Location" ]%string.

(** The row of a record: [%s/%s/%s] of month, day and year, [%s:%s] of hour
    and minute, the zones, calories and heart rates, and [%s, %s] of city
    and state. *)
Definition csv_row (s : snippet) : list gostring :=
  [ Month s ++ str "/" ++ Day s ++ str "/" ++ Year s;
    Hour s ++ str ":" ++ Minute s;
    Zone1 s; Zone2 s; Zone3 s; Zone4 s; Zone5 s;
    Calories s; AverageHeartRate s; PeakHeartRate s;
    City s ++ str ", " ++ State s ].

Fixpoint str_eqb (a b : gostring) : bool :=
  match a, b with
  | [], [] => true
  | x :: a', y :: b' => (x =? y) && str_eqb a' b'
  | _, _ => false
  end.

(** [unicode.IsSpace] *)
Definition IsSpace (r : rune) : bool :=
  existsb (N.eqb r)
    [9; 10; 11; 12; 13; 32; 133; 160; 5760; 8232; 8233; 8239; 8287; 12288] ||
  ((8192 <=? r) && (r <=? 8202)).

(** [fieldNeedsQuotes]: a field that is not empty and is [\.], or holds
    the comma, a quote, a carriage return or a newline, or begins with a
    space. *)
Definition fieldNeedsQuotes (f : gostring) : bool :=
  match f with
  | [] => false
  | r1 :: _ =>
      str_eqb f [92; 46] || existsb (N.eqb 44) f ||
      existsb (fun c => (c =? 34) || (c =? 13) || (c =? 10)) f ||
      IsSpace r1
  end.

(** Inside the quotes every quote is written twice. *)
Fixpoint quote_body (f : gostring) : gostring :=
  match f with
  | [] => []
  | c :: f' => (if c =? 34 then [34; 34] else [c]) ++ quote_body f'
  end.

Definition write_field (f : gostring) : gostring :=
  if fieldNeedsQuotes f then 34 :: quote_body f ++ [34] else f.

Fixpoint write_fields (first : bool) (record : list gostring) : gostring :=
  match record with
  | [] => []
  | f :: rest =>
      (if first then [] else [44]) ++ write_field f ++ write_fields false rest
  end.

Definition csv_Write (record : list gostring) : gostring :=
  write_fields true record ++ [10].

(** What [main] writes for the sorted records. *)
Definition write_csv (l : list snippet) : gostring :=
  csv_Write csv_header ++ flat_map (fun s => csv_Write (csv_row s)) l.

(** [fmt.Printf] of the loop for a snippet that does not match: the text
    of the snippet after the notice, and a newline. *)
Definition ignored_line (m : gostring) : gostring :=
  str "snippet did not match pattern, ignoring: " ++ m ++ [10].

(** The loop of [main] with what it prints on standard output on the way. *)
Fixpoint collect_printing (msgs : list gostring) (acc : list snippet) (printed : gostring)
  : option (list snippet * gostring) :=
  match msgs with
  | [] => Some (acc, printed)
  | m :: msgs' =>
      match match_snippet m with
      | Matched d => collect_printing msgs' (acc ++ [d]) printed
      | NotMatched => collect_printing msgs' acc (printed ++ ignored_line m)
      | Panicked => None
      end
  end.

(** The notices of the snippets that do not match, in the order of the
    snippets. *)
Definition ignored_lines (msgs : list gostring) : gostring :=
  flat_map (fun m => match match_snippet m with
                     | NotMatched => ignored_line m
                     | _ => []
                     end) msgs.

(** How [main] ends: it returns, or [log.Fatal] stops it. *)
Inductive ending := Returned | Fatal.

(** What a run of [main] leaves, from the loop on: the text on standard
    output, the text written to the file of [-o], and the ending. *)
Record report := { on_stdout : gostring; in_file : gostring; ending_of : ending }.

(** [main] from the fetched snippets on: the loop, the sort and the csv;
    [None] is a panic.  [Output] is [args.Output] and [opens] tells whether
    [os.Open(args.Output)] succeeds.  The notices of the loop are printed at
    once; the csv goes through the buffer of the writer and is flushed when
    [main] returns, so it comes after them.  Without [-o] the csv goes to
    standard output.  With [-o] the file is opened by [os.Open], for
    reading only: every write to it fails, the errors of [Write] and [Flush]
    are not looked at, and nothing reaches the file; when the file cannot be
    opened [log.Fatal] ends the program before the csv. *)
Definition main_report (Output : gostring) (opens : bool) (msgs : list gostring)
  : option report :=
  match collect_printing msgs [] [] with
  | None => None
  | Some (l, printed) =>
      let csv := write_csv (sort_by_date l) in
      match Output with
      | [] => Some {| on_stdout := printed ++ csv; in_file := []; ending_of := Returned |}
      | _ :: _ =>
          if opens
          then Some {| on_stdout := printed; in_file := []; ending_of := Returned |}
          else Some {| on_stdout := printed; in_file := []; ending_of := Fatal |}
      end
  end.

(** The line of a record in the report: only the location is in quotes. *)
Definition csv_line (r : snippet) : gostring :=
  Month r ++ str "/" ++ Day r ++ str "/" ++ Year r ++ str "," ++
  Hour r ++ str ":" ++ Minute r ++ str "," ++
  Zone1 r ++ str "," ++ Zone2 r ++ str "," ++ Zone3 r ++ str "," ++
  Zone4 r ++ str "," ++ Zone5 r ++ str "," ++
  Calories r ++ str "," ++ AverageHeartRate r ++ str "," ++
  PeakHeartRate r ++ str "," ++
  [34] ++ City r ++ str ", " ++ State r ++ [34] ++ [10].

Definition csv_header_line : gostring :=
  str "Date,Time,Zone 1,Zone 2,Zone 3,Zone 4,Zone 5,Calories,Average Heart Rate,Peak Heart Rate,Location" ++ [10].

(** The number that a string of decimal digits writes. *)
Fixpoint val (t : gostring) : N :=
  match t with
  | [] => 0
  | c :: t' => (c - 48) * 10 ^ N.of_nat (length t') + val t'
  end.

(** The order of the calendar on the dates of two records. *)
Definition date_before (r1 r2 : snippet) : bool :=
  (val (Year r1) <? val (Year r2)) ||
  ((val (Year r1) =? val (Year r2)) &&
   ((val (Month r1) <? val (Month r2)) ||
    ((val (Month r1) =? val (Month r2)) && (val (Day r1) <? val (Day r2))))).

(** The fields of a record that the report shows. *)
Definition reported (r : snippet) : list gostring :=
  [ Month r; Day r; Year r; Hour r; Minute r; Zone1 r; Zone2 r; Zone3 r;
    Zone4 r; Zone5 r; Calories r; AverageHeartRate r; PeakHeartRate r;
    City r; State r ].

(** A tag of plain text: no backslash, no quote, no newline, nothing
    outside ASCII, no dot and no operator of the pattern language. *)
Definition plain_rune (c : rune) : bool :=
  negb ((c =? 92) || (c =? 34) || (c =? 10) || (128 <=? c) || (c =? 46) ||
        is_meta c).

(** A field name that begins with an ASCII character; for such a name
    [isExported] is the rule of Go. *)
Definition ascii_initial (name : string) : bool :=
  match name with
  | String c _ => N_of_ascii c <? 128
  | EmptyString => false
  end.

(** The names that a compiled schema captures. *)
Fixpoint names_of (gs : Regexp) : list string :=
  match gs with
  | [] => []
  | g :: gs' =>
      match g_name g with
      | Some n => n :: names_of gs'
      | None => names_of gs'
      end
  end.

(** * Properties *)

(** ** The compiled expression *)

Example Unquote_word : Unquote "\\w+" = Some (str "\w+").
Proof. reflexivity. Qed.

Example Unquote_zwnj : Unquote "\u200c:" = Some [zwnj; 58].
Proof. reflexivity. Qed.

Example Parse_word2 : Parse (str "\w{2}") = Some [(Cls Word, Exactly 2)].
Proof. reflexivity. Qed.

Example Parse_dot : Parse (str "G. H") =
  Some [(Lit 71, One); (AnyNotNL, One); (Lit 32, One); (Lit 72, One)].
Proof. reflexivity. Qed.

Example Parse_unsupported : Parse (str "a|b") = None.
Proof. reflexivity. Qed.

Lemma snippetParser_compiled : Compile snippet_fields = Some snippetParser.
Proof. vm_compute. reflexivity. Qed.

Lemma snippetParser_wf : wf_pieces (flat snippetParser) = true.
Proof. vm_compute. reflexivity. Qed.

(** ** Backtracking against the deterministic reading *)

Lemma span_app_eq p s : fst (span p s) ++ snd (span p s) = s.
Proof.
  induction s as [|c s IH]; simpl; [reflexivity|].
  destruct (p c); simpl; [|reflexivity].
  destruct (span p s) as [a b]; simpl in *. now rewrite IH.
Qed.

Lemma span_all p s : forallb p (fst (span p s)) = true.
Proof.
  induction s as [|c s IH]; simpl; [reflexivity|].
  destruct (p c) eqn:E; simpl; [|reflexivity].
  destruct (span p s) as [a b]; simpl in *. now rewrite E, IH.
Qed.

Lemma span_stop p s c r : snd (span p s) = c :: r -> p c = false.
Proof.
  induction s as [|x s IH]; simpl; [discriminate|].
  destruct (p x) eqn:E; simpl.
  - destruct (span p s) as [a b]; simpl in *. exact IH.
  - intros H. injection H as -> _. exact E.
Qed.

Section Determinisation.
Variable R : Type.
Implicit Types k : gostring -> option R.

Lemma atom_disjoint_spec a a' c :
  atom_disjoint a a' = true -> atom_match a c = true -> atom_match a' c = false.
Proof.
  intros H1 H2. destruct a as [l| |cl].
  - simpl in H1, H2. apply N.eqb_eq in H2. subst c. now apply negb_true_iff.
  - destruct a' as [l'| |cl']; try discriminate.
    change (negb (atom_match AnyNotNL l') = true) in H1.
    simpl. destruct (c =? l') eqn:E; [|reflexivity].
    apply N.eqb_eq in E. subst c. apply negb_true_iff in H1. congruence.
  - destruct a' as [l'| |cl']; try discriminate.
    change (negb (atom_match (Cls cl) l') = true) in H1.
    simpl. destruct (c =? l') eqn:E; [|reflexivity].
    apply N.eqb_eq in E. subst c. apply negb_true_iff in H1. congruence.
Qed.

Lemma plus_k_greedy a k :
  (forall c s', atom_match a c = true -> k (c :: s') = None) \/
  (forall s, k s <> None) ->
  forall s,
    plus_k a s k =
    match span (atom_match a) s with
    | ([], _) => None
    | (_, r) => k r
    end.
Proof.
  intros Hk s. induction s as [|c s IH]; simpl; [reflexivity|].
  destruct (atom_match a c) eqn:Ec; [|reflexivity].
  rewrite IH.
  pose proof (span_app_eq (atom_match a) s) as Happ.
  pose proof (span_all (atom_match a) s) as Hall.
  destruct (span (atom_match a) s) as [t r]; simpl in *.
  destruct t as [|x t]; simpl in *.
  - now subst.
  - destruct (k r) eqn:Er; [reflexivity|].
    destruct Hk as [Hk|Hk].
    + subst s. apply Hk. now apply andb_true_iff in Hall.
    + now apply Hk in Er.
Qed.

Lemma one_k_det a s k :
  one_k a s k = match d_rep 1 a s with Some (_, r) => k r | None => None end.
Proof.
  destruct s as [|c s]; simpl; [reflexivity|].
  now destruct (atom_match a c).
Qed.

Lemma rep_k_det n a : forall s k,
  rep_k n a s k = match d_rep n a s with Some (_, r) => k r | None => None end.
Proof.
  induction n as [|n IH]; intros s k; simpl; [reflexivity|].
  destruct s as [|c s]; simpl; [reflexivity|].
  destruct (atom_match a c); [|reflexivity].
  rewrite IH. now destruct (d_rep n a s) as [[t r]|].
Qed.

Lemma m_piece_first a q c s k :
  nonzero q = true -> atom_match a c = false -> m_piece (a, q) (c :: s) k = None.
Proof.
  intros Hq Hc. unfold m_piece; simpl.
  destruct q as [| |[|n]]; simpl; try discriminate; now rewrite Hc.
Qed.

Lemma guarded_pieces ps follow k :
  wf_pieces (ps ++ follow) = true ->
  guarded (first_atom follow) k ->
  guarded (first_atom (ps ++ follow)) (fun s => m_pieces ps s k).
Proof.
  destruct ps as [|[a q] ps]; simpl; [auto|].
  intros Hwf _ c s' Hc.
  apply andb_true_iff in Hwf as [Hwf _]. apply andb_true_iff in Hwf as [Hq _].
  now apply m_piece_first.
Qed.

Lemma m_piece_det a q k next :
  match q, next with
  | Plus, Some a' => atom_disjoint a a' = true
  | _, _ => True
  end ->
  guarded next k ->
  forall s,
    m_piece (a, q) s k =
    match d_piece (a, q) s with Some (_, r) => k r | None => None end.
Proof.
  intros Hd Hg s. unfold m_piece, d_piece; simpl.
  destruct q as [| |n].
  - apply one_k_det.
  - rewrite plus_k_greedy.
    + destruct (span (atom_match a) s) as [[|x t] r]; reflexivity.
    + destruct next as [a'|]; simpl in Hg.
      * left. intros c s' Hc. apply Hg. eapply atom_disjoint_spec; eauto.
      * now right.
  - apply rep_k_det.
Qed.

Lemma m_piece_ext p k k' :
  (forall s, k s = k' s) -> forall s, m_piece p s k = m_piece p s k'.
Proof.
  intros E s. destruct p as [a q]. unfold m_piece; simpl. destruct q as [| |n].
  - destruct s as [|c s]; simpl; [reflexivity|]. now rewrite E.
  - induction s as [|c s IH]; simpl; [reflexivity|]. now rewrite IH, E.
  - revert s. induction n as [|n IH]; intros s; simpl; [apply E|].
    destruct s as [|c s]; simpl; [reflexivity|]. now rewrite IH.
Qed.

Lemma m_pieces_det ps : forall follow k,
  wf_pieces (ps ++ follow) = true ->
  guarded (first_atom follow) k ->
  forall s,
    m_pieces ps s k =
    match d_pieces ps s with Some (_, r) => k r | None => None end.
Proof.
  induction ps as [|[a q] ps IH]; intros follow k Hwf Hg s; simpl; [reflexivity|].
  pose proof Hwf as Hwf0. simpl in Hwf.
  apply andb_true_iff in Hwf as [Hwf Hwf']. apply andb_true_iff in Hwf as [Hq Hd].
  rewrite (m_piece_ext (a, q) _ (fun s' =>
     match d_pieces ps s' with Some (_, r) => k r | None => None end)).
  2:{ intros s'. now apply IH with (follow := follow). }
  rewrite (@m_piece_det a q _ (first_atom (ps ++ follow))).
  - destruct (d_piece (a, q) s) as [[t1 r1]|]; [|reflexivity].
    now destruct (d_pieces ps r1) as [[t2 r2]|].
  - destruct q; auto. destruct (first_atom (ps ++ follow)); auto.
  - pose proof (@guarded_pieces ps follow k Hwf' Hg) as G.
    destruct (first_atom (ps ++ follow)); simpl in *; intros; rewrite <- IH with (follow := follow); auto.
Qed.
End Determinisation.

Lemma wf_pieces_app_r ps : forall follow,
  wf_pieces (ps ++ follow) = true -> wf_pieces follow = true.
Proof.
  induction ps as [|[a q] ps IH]; intros follow H; simpl in *; [exact H|].
  apply andb_true_iff in H as [_ H]. now apply IH.
Qed.

Lemma d_rep_eq n a : forall s t r, d_rep n a s = Some (t, r) -> s = t ++ r.
Proof.
  induction n as [|n IH]; intros s t r; simpl.
  - intros H. now injection H as <- <-.
  - destruct s as [|c s]; [discriminate|].
    destruct (atom_match a c); [|discriminate].
    destruct (d_rep n a s) as [[t' r']|] eqn:E; [|discriminate].
    intros H. injection H as <- <-. simpl. f_equal. now apply IH.
Qed.

Lemma d_piece_eq p s t r : d_piece p s = Some (t, r) -> s = t ++ r.
Proof.
  unfold d_piece. destruct (snd p) as [| |n].
  - apply d_rep_eq.
  - pose proof (span_app_eq (atom_match (fst p)) s) as E.
    destruct (span (atom_match (fst p)) s) as [[|x t'] r']; [discriminate|].
    intros H. injection H as <- <-. now rewrite <- E.
  - apply d_rep_eq.
Qed.

Lemma d_pieces_eq ps : forall s t r, d_pieces ps s = Some (t, r) -> s = t ++ r.
Proof.
  induction ps as [|p ps IH]; intros s t r; simpl.
  - intros H. now injection H as <- <-.
  - destruct (d_piece p s) as [[t1 r1]|] eqn:E1; [|discriminate].
    destruct (d_pieces ps r1) as [[t2 r2]|] eqn:E2; [|discriminate].
    intros H. injection H as <- <-.
    apply d_piece_eq in E1. apply IH in E2. subst. now rewrite app_assoc.
Qed.

Lemma slice_app t r : slice (t ++ r) r = t.
Proof.
  unfold slice. rewrite length_app.
  replace (length t + length r - length r)%nat with (length t + 0)%nat by lia.
  rewrite firstn_app_2. simpl. apply app_nil_r.
Qed.

Lemma guarded_groups gs :
  wf_pieces (flat gs) = true ->
  forall f : gostring -> captures,
    guarded (first_atom (flat gs)) (fun s => m_groups gs s (f s)).
Proof.
  induction gs as [|g gs IH]; intros Hwf f.
  - simpl. discriminate.
  - change (flat (g :: gs)) with (g_pat g ++ flat gs) in *.
    pose proof (wf_pieces_app_r _ _ Hwf) as Hwf'.
    assert (G : forall s0, guarded (first_atom (g_pat g ++ flat gs))
              (fun s => m_pieces (g_pat g) s
                 (fun s' => m_groups gs s' (add_capture g s0 s' (f s0))))).
    { intros s0. apply guarded_pieces; [exact Hwf|].
      apply (IH Hwf' (fun s' => add_capture g s0 s' (f s0))). }
    destruct (first_atom (g_pat g ++ flat gs)) as [a'|]; simpl in *.
    + intros c s' Hc. now apply (G (c :: s')).
    + intros s. apply (G s).
Qed.

(** On an expression that passes [wf_pieces] the backtracking matcher and
    the deterministic one agree. *)
Lemma m_groups_det gs :
  wf_pieces (flat gs) = true ->
  forall s caps,
    m_groups gs s caps =
    match d_tokens gs s with
    | Some (toks, rest) => Some (rev caps ++ caps_of gs toks, rest)
    | None => None
    end.
Proof.
  induction gs as [|g gs IH]; intros Hwf s caps; simpl.
  - now rewrite app_nil_r.
  - change (flat (g :: gs)) with (g_pat g ++ flat gs) in Hwf.
    pose proof (wf_pieces_app_r _ _ Hwf) as Hwf'.
    rewrite m_pieces_det with (follow := flat gs); [|exact Hwf|].
    2:{ apply (guarded_groups gs Hwf' (fun s' => add_capture g s s' caps)). }
    destruct (d_pieces (g_pat g) s) as [[t r]|] eqn:E; [|reflexivity].
    rewrite (IH Hwf').
    destruct (d_tokens gs r) as [[ts rest]|]; [|reflexivity].
    apply d_pieces_eq in E. subst s.
    unfold add_capture. rewrite slice_app.
    destruct (g_name g); simpl; [|reflexivity].
    now rewrite <- app_assoc.
Qed.

Lemma match_here_det s :
  match_here snippetParser s =
  match d_tokens snippetParser s with
  | Some (toks, rest) => Some (caps_of snippetParser toks, rest)
  | None => None
  end.
Proof.
  unfold match_here. now rewrite (m_groups_det snippetParser snippetParser_wf).
Qed.

(** ** The grammar of a snippet *)

Lemma d_tokens_cons_inv g gs s toks rest :
  d_tokens (g :: gs) s = Some (toks, rest) ->
  exists t r ts,
    d_pieces (g_pat g) s = Some (t, r) /\ d_tokens gs r = Some (ts, rest) /\
    toks = t :: ts.
Proof.
  simpl. destruct (d_pieces (g_pat g) s) as [[t r]|]; [|discriminate].
  destruct (d_tokens gs r) as [[ts rest']|] eqn:E; [|discriminate].
  intros H. injection H as <- <-. now exists t, r, ts.
Qed.

Lemma d_pieces_one_inv a ps s t r :
  d_pieces ((a, One) :: ps) s = Some (t, r) ->
  exists c s' t',
    s = c :: s' /\ atom_match a c = true /\ t = c :: t' /\
    d_pieces ps s' = Some (t', r).
Proof.
  simpl. unfold d_piece; simpl.
  destruct s as [|c s]; [discriminate|].
  destruct (atom_match a c) eqn:E; [|discriminate].
  destruct (d_pieces ps s) as [[t2 r2]|] eqn:E2; [|discriminate].
  intros H. injection H as <- <-. now exists c, s, t2.
Qed.

Lemma d_pieces_plus_inv a s t r :
  d_pieces [(a, Plus)] s = Some (t, r) ->
  s = t ++ r /\ t <> [] /\ forallb (atom_match a) t = true /\
  match r with [] => True | c :: _ => atom_match a c = false end.
Proof.
  simpl. unfold d_piece; simpl.
  pose proof (span_app_eq (atom_match a) s) as E.
  pose proof (span_all (atom_match a) s) as A.
  pose proof (span_stop (atom_match a) s) as S.
  destruct (span (atom_match a) s) as [[|x t1] r1]; [discriminate|].
  intros H. injection H as <- <-. simpl in *. rewrite app_nil_r.
  repeat split; auto; try discriminate.
  destruct r1 as [|c r1]; [exact I|]. now apply (S c r1).
Qed.

Lemma d_pieces_rep2_inv a s t r :
  d_pieces [(a, Exactly 2)] s = Some (t, r) ->
  exists c1 c2,
    s = c1 :: c2 :: r /\ t = [c1; c2] /\
    atom_match a c1 = true /\ atom_match a c2 = true.
Proof.
  simpl. unfold d_piece; simpl.
  destruct s as [|c1 [|c2 s]]; try discriminate.
  - destruct (atom_match a c1); discriminate.
  - destruct (atom_match a c1) eqn:E1; [|discriminate].
    destruct (atom_match a c2) eqn:E2; [|discriminate].
    intros H. injection H as <- <-. now exists c1, c2.
Qed.

Lemma d_pieces_nil_inv s t r : d_pieces [] s = Some (t, r) -> t = [] /\ r = s.
Proof. simpl. intros H. now injection H as <- <-. Qed.

Lemma lit_match c l : atom_match (Lit l) c = true -> c = l.
Proof. simpl. apply N.eqb_eq. Qed.

Lemma dot_match c : atom_match AnyNotNL c = true -> c <> 10.
Proof. simpl. intros H E. subst c. discriminate. Qed.

Ltac invert_pieces H :=
  repeat
    (let c := fresh "c" in
     let s' := fresh "s" in
     let t' := fresh "t" in
     let Hc := fresh "Hc" in
     apply d_pieces_one_inv in H;
     destruct H as (c & s' & t' & -> & Hc & -> & H);
     first [apply lit_match in Hc; subst c | apply dot_match in Hc]);
  first
    [ apply d_pieces_nil_inv in H; destruct H as [-> ->]
    | let Hne := fresh "Hne" in
      let Hall := fresh "Hall" in
      let Hstop := fresh "Hstop" in
      apply d_pieces_plus_inv in H; destruct H as (-> & Hne & Hall & Hstop)
    | let c1 := fresh "c" in
      let c2 := fresh "c" in
      let H1 := fresh "Hw" in
      let H2 := fresh "Hw" in
      apply d_pieces_rep2_inv in H; destruct H as (c1 & c2 & -> & -> & H1 & H2) ].

Ltac invert_tokens H :=
  repeat
    (let t := fresh "t" in
     let r := fresh "r" in
     let ts := fresh "ts" in
     let Hp := fresh "Hp" in
     apply d_tokens_cons_inv in H;
     destruct H as (t & r & ts & Hp & H & ->);
     cbn [g_pat] in Hp;
     invert_pieces Hp).

Lemma tokens_sound s toks rest :
  d_tokens snippetParser s = Some (toks, rest) ->
  exists r dot,
    toks = tokens_of r dot /\ s = render r dot ++ rest /\
    well_formed r /\ dot <> 10 /\ no_digit_ahead rest.
Proof.
  intros H. unfold snippetParser in H.
  invert_tokens H.
  simpl in H. injection H as <- <-.
  eexists (Build_snippet _ _ _ _ _ _ _ _ _ _ _ _ _ _ _ _ _ _), _.
  split; [reflexivity|].
  split.
  { unfold render, tokens_of; cbn.
    repeat (progress (rewrite <- ?app_assoc, ?app_nil_r; cbn [app])). reflexivity. }
  split; [|split].
  - constructor; cbn; try (split; assumption).
    split; [reflexivity|].
    change (is_word c = true) in Hw. change (is_word c0 = true) in Hw0.
    cbn [forallb]. now rewrite Hw, Hw0.
  - eassumption.
  - match goal with
    | Hs : match ?x with [] => True | _ :: _ => _ end |- no_digit_ahead ?x =>
        exact Hs
    end.
Qed.

Lemma steps_ok_tokens gs : forall toks rest,
  steps_ok gs toks rest -> d_tokens gs (concat toks ++ rest) = Some (toks, rest).
Proof.
  induction gs as [|g gs IH]; intros [|t toks] rest H; simpl in H; try contradiction.
  - reflexivity.
  - destruct H as [H1 H2]. cbn [concat d_tokens]. rewrite <- app_assoc, H1.
    now rewrite (IH _ _ H2).
Qed.

Lemma span_exact p t r :
  forallb p t = true ->
  match r with [] => True | c :: _ => p c = false end ->
  span p (t ++ r) = (t, r).
Proof.
  intros Ht Hr. induction t as [|x t IH]; simpl in *.
  - destruct r as [|c r]; simpl; [reflexivity|]. now rewrite Hr.
  - apply andb_true_iff in Ht as [Hx Ht]. now rewrite Hx, (IH Ht).
Qed.

Lemma d_pieces_plus_step a t r :
  t <> [] -> forallb (atom_match a) t = true ->
  match r with [] => True | c :: _ => atom_match a c = false end ->
  d_pieces [(a, Plus)] (t ++ r) = Some (t, r).
Proof.
  intros Hne Ht Hr. simpl. unfold d_piece; simpl.
  rewrite (span_exact _ _ _ Ht Hr).
  destruct t; [contradiction|]. now rewrite app_nil_r.
Qed.

Lemma d_pieces_one_step a ps c s t r :
  atom_match a c = true -> d_pieces ps s = Some (t, r) ->
  d_pieces ((a, One) :: ps) (c :: s) = Some (c :: t, r).
Proof.
  intros Hc H. simpl. unfold d_piece; simpl. now rewrite Hc, H.
Qed.

Lemma d_pieces_rep2_step a c1 c2 r :
  atom_match a c1 = true -> atom_match a c2 = true ->
  d_pieces [(a, Exactly 2)] ([c1; c2] ++ r) = Some ([c1; c2], r).
Proof.
  intros H1 H2. simpl. unfold d_piece; simpl. now rewrite H1, H2.
Qed.

Lemma tokens_complete r dot rest :
  well_formed r -> dot <> 10 -> no_digit_ahead rest ->
  d_tokens snippetParser (render r dot ++ rest) = Some (tokens_of r dot, rest).
Proof.
  intros W Hdot Hrest. apply steps_ok_tokens.
  assert (Hd : atom_match AnyNotNL dot = true).
  { simpl. apply negb_true_iff. now apply N.eqb_neq. }
  destruct W as [[] [] [] [] [] [] [] [A2 AW] [] [] [] [] [] [] [] [] [] []].
  destruct r; cbn [City State Month Day Year Hour Minute AMPM Instructor Zone1
    Zone2 Zone3 Zone4 Zone5 Calories SplatPoints AverageHeartRate
    PeakHeartRate] in *.
  destruct AMPM0 as [|c1 [|c2 [|]]]; try discriminate A2.
  cbn [forallb] in AW. apply andb_true_iff in AW as [AW1 AW2].
  apply andb_true_iff in AW2 as [AW2 _].
  unfold snippetParser, tokens_of.
  cbn [steps_ok g_pat City State Month Day Year Hour Minute AMPM Instructor
    Zone1 Zone2 Zone3 Zone4 Zone5 Calories SplatPoints AverageHeartRate
    PeakHeartRate].
  repeat match goal with
  | |- _ /\ _ => split
  | |- True => exact I
  | |- d_pieces [(_, Exactly 2)] _ = _ =>
      apply d_pieces_rep2_step; assumption
  | |- d_pieces [(_, Plus)] _ = _ =>
      apply d_pieces_plus_step; [assumption | assumption | first [exact Hrest | reflexivity]]
  | |- d_pieces _ _ = _ =>
      first [ reflexivity
            | cbn [str app map list_ascii_of_string];
              repeat (apply d_pieces_one_step; [first [reflexivity | assumption]|]);
              reflexivity ]
  end.
Qed.

Lemma caps_of_tokens r dot :
  caps_of snippetParser (tokens_of r dot) = fields_of r.
Proof. reflexivity. Qed.

Lemma inflate_fields d r : inflateStruct d (fields_of r) = Some r.
Proof. destruct r. reflexivity. Qed.

Lemma fields_of_inj r r' : fields_of r = fields_of r' -> r = r'.
Proof.
  intros H. pose proof (inflate_fields zero_snippet r) as E.
  rewrite H, inflate_fields in E. now injection E.
Qed.

(** The expression matches at the start of [s] exactly when [s] begins with
    the rendering of a well-formed record, the last number taken whole. *)
Lemma match_here_spec s caps rest :
  match_here snippetParser s = Some (caps, rest) <->
  exists r dot,
    caps = fields_of r /\ s = render r dot ++ rest /\
    well_formed r /\ dot <> 10 /\ no_digit_ahead rest.
Proof.
  rewrite match_here_det. split.
  - destruct (d_tokens snippetParser s) as [[toks rest']|] eqn:E; [|discriminate].
    intros H. injection H as <- <-.
    apply tokens_sound in E. destruct E as (r & dot & -> & -> & W & Hd & Hr).
    exists r, dot. split; [reflexivity|]. split; [reflexivity|].
    split; [exact W|]. split; assumption.
  - intros (r & dot & -> & -> & W & Hd & Hr).
    rewrite (@tokens_complete r dot rest W Hd Hr). reflexivity.
Qed.

(** ** The search *)

Lemma FindSubmatch_Some re : forall s caps,
  FindSubmatch re s = Some caps <->
  exists k rest,
    (k <= length s)%nat /\
    match_here re (skipn k s) = Some (caps, rest) /\
    forall j, (j < k)%nat -> match_here re (skipn j s) = None.
Proof.
  induction s as [|c s IH]; intros caps; simpl.
  - destruct (match_here re []) as [[caps' rest']|] eqn:E.
    + split.
      * intros H. injection H as <-. exists 0%nat, rest'. repeat split; auto. lia.
      * intros (k & rest & Hk & Hm & _). assert (k = 0)%nat by lia. subst k.
        simpl in Hm. congruence.
    + split; [discriminate|].
      intros (k & rest & Hk & Hm & _). assert (k = 0)%nat by lia. subst k.
      simpl in Hm. congruence.
  - destruct (match_here re (c :: s)) as [[caps' rest']|] eqn:E.
    + split.
      * intros H. injection H as <-. exists 0%nat, rest'. repeat split; auto; lia.
      * intros (k & rest & Hk & Hm & Hlt). destruct k as [|k].
        -- simpl in Hm. congruence.
        -- specialize (Hlt 0%nat ltac:(lia)). simpl in Hlt. congruence.
    + rewrite IH. split.
      * intros (k & rest & Hk & Hm & Hlt). exists (S k), rest.
        repeat split; [lia | exact Hm |].
        intros [|j] Hj; [exact E|]. apply Hlt. lia.
      * intros (k & rest & Hk & Hm & Hlt). destruct k as [|k].
        -- simpl in Hm. congruence.
        -- exists k, rest. repeat split; [lia | exact Hm |].
           intros j Hj. apply (Hlt (S j)). lia.
Qed.

Lemma FindSubmatch_None re : forall s,
  FindSubmatch re s = None <->
  forall k, (k <= length s)%nat -> match_here re (skipn k s) = None.
Proof.
  induction s as [|c s IH]; simpl.
  - destruct (match_here re []) as [[caps' rest']|] eqn:E.
    + split; [discriminate|]. intros H. specialize (H 0%nat ltac:(lia)).
      simpl in H. congruence.
    + split; [|reflexivity]. intros _ k Hk. assert (k = 0)%nat by lia.
      subst k. exact E.
  - destruct (match_here re (c :: s)) as [[caps' rest']|] eqn:E.
    + split; [discriminate|]. intros H. specialize (H 0%nat ltac:(lia)).
      simpl in H. congruence.
    + rewrite IH. split.
      * intros H [|k] Hk; [exact E|]. apply H. lia.
      * intros H k Hk. apply (H (S k)). lia.
Qed.

(** ** [Find] on the snippet expression *)

Lemma FindSubmatch_fields s caps :
  FindSubmatch snippetParser s = Some caps -> exists r, caps = fields_of r.
Proof.
  intros H. apply FindSubmatch_Some in H. destruct H as (k & rest & _ & H & _).
  apply match_here_spec in H. destruct H as (r & dot & -> & _). now exists r.
Qed.

Lemma match_snippet_Matched s r :
  match_snippet s = Matched r <-> FindSubmatch snippetParser s = Some (fields_of r).
Proof.
  unfold match_snippet, Find. split.
  - destruct (FindSubmatch snippetParser s) as [caps|] eqn:E; [|discriminate].
    destruct (FindSubmatch_fields _ E) as [r' ->].
    rewrite inflate_fields. intros H. now injection H as <-.
  - intros ->. now rewrite inflate_fields.
Qed.

Lemma match_snippet_NotMatched s :
  match_snippet s = NotMatched <-> FindSubmatch snippetParser s = None.
Proof.
  unfold match_snippet, Find. split.
  - destruct (FindSubmatch snippetParser s) as [caps|] eqn:E; [|reflexivity].
    destruct (FindSubmatch_fields _ E) as [r' ->].
    rewrite inflate_fields. discriminate.
  - now intros ->.
Qed.

Lemma FindSubmatch_prefix re p : forall s,
  FindSubmatch re s <> None -> FindSubmatch re (p ++ s) <> None.
Proof.
  induction p as [|c p IH]; intros s H; simpl; [exact H|].
  destruct (match_here re (c :: p ++ s)) as [[caps rest]|]; [discriminate|].
  now apply IH.
Qed.

Lemma match_snippet_total s :
  (exists r, match_snippet s = Matched r) \/ match_snippet s = NotMatched.
Proof.
  destruct (FindSubmatch snippetParser s) as [caps|] eqn:E.
  - left. destruct (FindSubmatch_fields _ E) as [r ->].
    exists r. now apply match_snippet_Matched.
  - right. now apply match_snippet_NotMatched.
Qed.

(** The loop of [main] never panics. *)
Lemma collect_total msgs : forall acc, exists l, collect msgs acc = Some l.
Proof.
  induction msgs as [|m msgs IH]; intros acc; simpl; [now exists acc|].
  destruct (match_snippet_total m) as [[r ->]| ->]; apply IH.
Qed.

Lemma match_snippet_leftmost s r :
  match_snippet s = Matched r <->
  exists k dot rest,
    (k <= length s)%nat /\ skipn k s = render r dot ++ rest /\
    well_formed r /\ dot <> 10 /\ no_digit_ahead rest /\
    forall j, (j < k)%nat -> match_here snippetParser (skipn j s) = None.
Proof.
  rewrite match_snippet_Matched, FindSubmatch_Some. split.
  - intros (k & rest & Hk & Hm & Hlt). apply match_here_spec in Hm.
    destruct Hm as (r' & dot & E & Hs & W & Hd & Hr).
    apply fields_of_inj in E. subst r'. exists k, dot, rest. auto 10.
  - intros (k & dot & rest & Hk & Hs & W & Hd & Hr & Hlt).
    exists k, rest. repeat split; auto.
    apply match_here_spec. exists r, dot. auto.
Qed.

(** ** Where a header can stand in a snippet *)

Lemma reads_split q w1 : forall w2 q2,
  reads q (w1 ++ w2) q2 -> exists q1, reads q w1 q1 /\ reads q1 w2 q2.
Proof.
  intros w2 q2 H. remember (w1 ++ w2) as w eqn:E.
  revert w1 E. induction H as [q|a q c w q' Hc H IH|a q c w q' Hc H IH|a q w q' H IH];
    intros w1 E.
  - symmetry in E. apply app_eq_nil in E as [-> ->].
    exists q. split; constructor.
  - destruct w1 as [|c1 w1]; simpl in E.
    + subst w2. exists (IOne a :: q). split; [constructor|]. now constructor.
    + injection E as <- ->. destruct (IH w1 eq_refl) as (q1 & H1 & H2).
      exists q1. split; [now constructor | exact H2].
  - destruct w1 as [|c1 w1]; simpl in E.
    + subst w2. exists (IStar a :: q). split; [constructor|].
      now apply reads_loop.
    + injection E as <- ->. destruct (IH w1 eq_refl) as (q1 & H1 & H2).
      exists q1. split; [now apply reads_loop | exact H2].
  - destruct (IH w1 E) as (q1 & H1 & H2).
    exists q1. split; [now apply reads_exit | exact H2].
Qed.

Lemma reads_app q w1 q1 w2 q2 :
  reads q w1 q1 -> reads q1 w2 q2 -> reads q (w1 ++ w2) q2.
Proof.
  intros H1 H2. induction H1; simpl; auto using reads.
Qed.

Lemma suffixes_In (A : Type) (pre l : list A) : In l (suffixes (pre ++ l)).
Proof.
  induction pre as [|x pre IH]; simpl.
  - destruct l; simpl; auto.
  - right. exact IH.
Qed.

Lemma reads_suffix q w q' : reads q w q' -> exists pre, q = pre ++ q'.
Proof.
  induction 1 as [q|a q c w q' Hc H IH|a q c w q' Hc H IH|a q w q' H IH].
  - now exists [].
  - destruct IH as [pre ->]. now exists (IOne a :: pre).
  - exact IH.
  - destruct IH as [pre ->]. now exists (IStar a :: pre).
Qed.

Lemma can_read_exit a q w : can_read w q = true -> can_read w (IStar a :: q) = true.
Proof.
  destruct w as [|c w]; simpl; [reflexivity|].
  intros H. rewrite existsb_app, H. apply orb_true_r.
Qed.

Lemma reads_can_read q w q' : reads q w q' -> can_read w q = true.
Proof.
  induction 1 as [q|a q c w q' Hc H IH|a q c w q' Hc H IH|a q w q' H IH].
  - reflexivity.
  - simpl. rewrite Hc. simpl. now rewrite IH.
  - simpl. rewrite Hc. simpl. now rewrite IH.
  - now apply can_read_exit.
Qed.

Lemma reads_star a q : forall t w q',
  forallb (atom_match a) t = true -> reads q w q' ->
  reads (IStar a :: q) (t ++ w) q'.
Proof.
  induction t as [|c t IH]; intros w q' Ht H; simpl in *.
  - now apply reads_exit.
  - apply andb_true_iff in Ht as [Hc Ht]. apply reads_loop; auto.
Qed.

Lemma d_rep_reads n a : forall s t r q w q',
  d_rep n a s = Some (t, r) -> reads q w q' ->
  reads (repeat (IOne a) n ++ q) (t ++ w) q'.
Proof.
  induction n as [|n IH]; intros s t r q w q'; simpl.
  - intros H. now injection H as <- <-.
  - destruct s as [|c s]; [discriminate|].
    destruct (atom_match a c) eqn:Ec; [|discriminate].
    destruct (d_rep n a s) as [[t' r']|] eqn:E; [|discriminate].
    intros H Hr. injection H as <- <-. simpl.
    apply reads_one; [exact Ec|]. eapply IH; eauto.
Qed.

Lemma d_pieces_reads ps : forall s t r q w q',
  d_pieces ps s = Some (t, r) -> reads q w q' ->
  reads (expand ps ++ q) (t ++ w) q'.
Proof.
  induction ps as [|[a qu] ps IH]; intros s t r q w q'; simpl.
  - intros H. now injection H as <- <-.
  - destruct (d_piece (a, qu) s) as [[t1 r1]|] eqn:E1; [|discriminate].
    destruct (d_pieces ps r1) as [[t2 r2]|] eqn:E2; [|discriminate].
    intros H Hr. injection H as <- <-. rewrite <- app_assoc.
    pose proof (IH _ _ _ _ _ _ E2 Hr) as Hrest.
    unfold d_piece in E1; simpl in E1. destruct qu as [| |n].
    + apply (d_rep_reads 1 a s E1 Hrest).
    + pose proof (span_all (atom_match a) s) as A.
      destruct (span (atom_match a) s) as [[|x t1'] r1']; [discriminate|].
      injection E1 as <- <-. simpl in A. apply andb_true_iff in A as [Ax A].
      simpl. apply reads_one; [exact Ax|]. now apply reads_star.
    + rewrite <- app_assoc. apply (d_rep_reads n a s E1 Hrest).
Qed.

Lemma expand_app ps1 ps2 : expand (ps1 ++ ps2) = expand ps1 ++ expand ps2.
Proof.
  induction ps1 as [|[a q] ps1 IH]; simpl; [reflexivity|].
  destruct q; simpl; rewrite IH; try reflexivity. now rewrite app_assoc.
Qed.

Lemma d_tokens_reads gs : forall s toks rest,
  d_tokens gs s = Some (toks, rest) ->
  reads (expand (flat gs)) (concat toks) [].
Proof.
  induction gs as [|g gs IH]; intros s toks rest; simpl.
  - intros H. injection H as <- <-. constructor.
  - destruct (d_pieces (g_pat g) s) as [[t r]|] eqn:E; [|discriminate].
    destruct (d_tokens gs r) as [[ts rest']|] eqn:E2; [|discriminate].
    intros H. injection H as <- <-.
    change (flat (g :: gs)) with (g_pat g ++ flat gs).
    rewrite expand_app. simpl. eapply d_pieces_reads; eauto.
Qed.

(** No state after the first one can read a whole header. *)
Lemma header_dies :
  forallb (fun q => negb (can_read header q))
    (suffixes (tl (expand (flat snippetParser)))) = true.
Proof. vm_compute. reflexivity. Qed.

(** In the rendering of a well-formed record the header stands at the
    start and nowhere else. *)
Lemma header_unique r dot x z :
  well_formed r -> dot <> 10 -> render r dot = x ++ header ++ z -> x = [].
Proof.
  intros W Hd E. destruct x as [|c x]; [reflexivity|]. exfalso.
  assert (Hr : no_digit_ahead []) by exact I.
  pose proof (@tokens_complete r dot [] W Hd Hr) as T.
  apply d_tokens_reads in T. fold (render r dot) in T. rewrite E in T.
  remember (tl (expand (flat snippetParser))) as Q eqn:EQ.
  assert (E0 : expand (flat snippetParser) = IOne (Lit 83) :: Q)
    by (subst Q; reflexivity).
  rewrite E0 in T. simpl in T.
  assert (T0 : reads Q (x ++ header ++ z) []) by (inversion T; assumption).
  destruct (reads_split _ _ T0) as (q1 & H1 & T1).
  destruct (reads_split _ _ T1) as (q2 & H2 & _).
  apply reads_can_read in H2.
  assert (Hin : In q1 (suffixes Q)).
  { destruct (reads_suffix H1) as [pre Hpre]. rewrite Hpre. apply suffixes_In. }
  subst Q.
  pose proof header_dies as D. rewrite forallb_forall in D.
  apply D in Hin. rewrite H2 in Hin. discriminate.
Qed.

(** ** Text after a snippet *)

Lemma render_header r dot : exists z, render r dot = header ++ z.
Proof. eexists. unfold render, tokens_of, header. cbn [concat]. reflexivity. Qed.

Lemma render_peak r dot x :
  render (set_field "PeakHeartRate" (PeakHeartRate r ++ x) r) dot =
  render r dot ++ x.
Proof.
  destruct r. unfold render, tokens_of. cbn.
  repeat (progress (rewrite <- ?app_assoc, ?app_nil_r; cbn [app])). reflexivity.
Qed.

Lemma well_formed_peak r x :
  well_formed r -> forallb is_digit x = true ->
  well_formed (set_field "PeakHeartRate" (PeakHeartRate r ++ x) r).
Proof.
  intros W Hx. destruct W. destruct r. constructor; cbn in *; try assumption.
  destruct wf_PeakHeartRate0 as [Hne Hall]. split.
  - intros E. apply app_eq_nil in E as [E _]. contradiction.
  - rewrite forallb_app, Hall, Hx. reflexivity.
Qed.

Lemma set_peak_same r : set_field "PeakHeartRate" (PeakHeartRate r ++ []) r = r.
Proof. destruct r. cbn. now rewrite app_nil_r. Qed.

Lemma skipn_split (s : gostring) j k :
  (j <= k)%nat -> skipn j s = firstn (k - j) (skipn j s) ++ skipn k s.
Proof.
  intros H. rewrite <- (firstn_skipn (k - j) (skipn j s)) at 1.
  rewrite skipn_skipn. f_equal. f_equal. lia.
Qed.

Lemma skipn_app_le (s t : gostring) j :
  (j <= length s)%nat -> skipn j (s ++ t) = skipn j s ++ t.
Proof.
  intros H. rewrite skipn_app. replace (j - length s)%nat with 0%nat by lia.
  reflexivity.
Qed.

Lemma no_digit_ahead_app l t : no_digit_ahead (l ++ t) -> no_digit_ahead l.
Proof. destruct l; simpl; auto. Qed.

(** An earlier position where the pattern fails does not begin to match
    when text is put after the input, if the pattern matches later on. *)
Lemma no_earlier_match s t j k r dot rest :
  (j < k <= length s)%nat ->
  skipn k s = render r dot ++ rest ->
  match_here snippetParser (skipn j s) = None ->
  match_here snippetParser (skipn j (s ++ t)) = None.
Proof.
  intros Hjk Hk Hj.
  destruct (match_here snippetParser (skipn j (s ++ t))) as [[caps1 rest1]|] eqn:E;
    [exfalso|reflexivity].
  apply match_here_spec in E. destruct E as (r1 & dot1 & _ & E & W1 & Hd1 & Hr1).
  rewrite skipn_app_le in E by lia.
  apply app_eq_app in E. destruct E as (l & [[E1 E2]|[E1 E2]]).
  - assert (M : match_here snippetParser (skipn j s) = Some (fields_of r1, l)).
    { apply match_here_spec. exists r1, dot1.
      split; [reflexivity|]. split; [exact E1|]. split; [exact W1|].
      split; [exact Hd1|]. subst rest1. now apply no_digit_ahead_app in Hr1. }
    congruence.
  - rewrite (@skipn_split s j k) in E1 by lia. rewrite Hk in E1.
    destruct (render_header r dot) as [z Hz]. rewrite Hz in E1.
    rewrite <- !app_assoc in E1.
    apply header_unique in E1; auto.
    apply (f_equal (@length rune)) in E1. rewrite length_firstn, length_skipn in E1.
    simpl in E1. lia.
Qed.

(** ** Separators and the city *)

Lemma prefixb_app p z : prefixb p (p ++ z) = true.
Proof. induction p as [|x p IH]; simpl; [reflexivity|]. now rewrite N.eqb_refl. Qed.

Lemma prefixb_spec p : forall s, prefixb p s = true -> exists z, s = p ++ z.
Proof.
  induction p as [|x p IH]; intros s H; simpl in *; [now exists s|].
  destruct s as [|y s]; [discriminate|].
  apply andb_true_iff in H as [E H]. apply N.eqb_eq in E. subst y.
  destruct (IH _ H) as [z ->]. now exists z.
Qed.

Lemma infixb_prefix p s : prefixb p s = true -> infixb p s = true.
Proof. intros H. destruct s; simpl; now rewrite H. Qed.

Lemma infixb_app p a z : infixb p (a ++ p ++ z) = true.
Proof.
  induction a as [|x a IH]; simpl.
  - apply infixb_prefix, prefixb_app.
  - rewrite IH. apply orb_true_r.
Qed.

Lemma infixb_spec p : forall s, infixb p s = true -> exists a z, s = a ++ p ++ z.
Proof.
  induction s as [|y s IH]; simpl; intros H.
  - rewrite orb_false_r in H. apply prefixb_spec in H as [z ->]. now exists [], z.
  - apply orb_true_iff in H as [H|H].
    + apply prefixb_spec in H as [z ->]. now exists [], z.
    + destruct (IH H) as (a & z & ->). now exists (y :: a), z.
Qed.

Lemma render_city r dot :
  exists z, render r dot = header ++ City r ++ str ", " ++ z.
Proof.
  eexists. unfold render, tokens_of, header. cbn [concat].
  rewrite <- !app_assoc. reflexivity.
Qed.

Lemma existsb_not_forallb (p : rune -> bool) l :
  existsb (fun c => negb (p c)) l = true -> forallb p l = true -> False.
Proof.
  induction l as [|x l IH]; simpl; [discriminate|].
  intros H1 H2. apply andb_true_iff in H2 as [Hx H2].
  rewrite Hx in H1. simpl in H1. auto.
Qed.

(** With a rune outside [\w] before the first [", "] after the header, the
    pattern does not match at the header. *)
Lemma city_not_word_here city rest :
  existsb (fun c => negb (is_word c)) city = true ->
  infixb (str ", ") city = false ->
  match_here snippetParser (header ++ city ++ str ", " ++ rest) = None.
Proof.
  intros Hbad Hcomma.
  destruct (match_here snippetParser (header ++ city ++ str ", " ++ rest))
    as [[caps rest']|] eqn:E; [exfalso|reflexivity].
  apply match_here_spec in E. destruct E as (r & dot & _ & E & W & _).
  destruct (render_city r dot) as [z Hz]. rewrite Hz in E.
  rewrite <- !app_assoc in E. apply app_inv_head in E.
  destruct W as [[_ Hcity] _ _ _ _ _ _ _ _ _ _ _ _ _ _ _ _ _].
  apply app_eq_app in E. destruct E as (l & [[E1 E2]|[E1 E2]]).
  - destruct l as [|d l].
    + rewrite app_nil_r in E1. subst city. eapply existsb_not_forallb; eauto.
    + simpl in E2. injection E2 as <- E2. destruct l as [|e l]; simpl in E2.
      * discriminate E2.
      * injection E2 as <- _. subst city.
        change (44 :: 32 :: l) with (str ", " ++ l) in Hcomma.
        rewrite infixb_app in Hcomma. discriminate.
  - rewrite E1, forallb_app in Hcity. apply andb_true_iff in Hcity as [Hcity _].
    eapply existsb_not_forallb; eauto.
Qed.

Lemma infixb_skipn p : forall k s,
  prefixb p (skipn k s) = true -> infixb p s = true.
Proof.
  induction k as [|k IH]; intros s H; simpl in H.
  - destruct s; simpl; now rewrite H.
  - destruct s as [|y s]; simpl in *; [now rewrite H|].
    rewrite (IH _ H). apply orb_true_r.
Qed.

(** The pattern matches only where a header stands. *)
Lemma match_here_header k s :
  match_here snippetParser (skipn k s) <> None -> infixb header s = true.
Proof.
  intros H. destruct (match_here snippetParser (skipn k s)) as [[caps rest]|] eqn:E;
    [|contradiction].
  apply match_here_spec in E. destruct E as (r & dot & _ & E & _).
  destruct (render_header r dot) as [z Hz]. rewrite Hz, <- app_assoc in E.
  apply infixb_skipn with (k := k). rewrite E. apply prefixb_app.
Qed.

(** Every separator but the one with the dot has to stand in the input as
    it is written, and so do the two parts around the dot. *)
Lemma infix_concat (p t : gostring) toks rest :
  In t toks -> (exists a z, t = a ++ p ++ z) ->
  exists a z, concat toks ++ rest = a ++ p ++ z.
Proof.
  intros Hin (a & z & ->). apply in_split in Hin. destruct Hin as (l1 & l2 & ->).
  rewrite concat_app. cbn [concat].
  exists (concat l1 ++ a), (z ++ concat l2 ++ rest).
  now rewrite <- !app_assoc.
Qed.

Lemma separator_required s sep :
  In sep separators \/ sep = str " AVG" \/ sep = str " HEART-RATE Peak HR: " ->
  sep <> str " AVG. HEART-RATE Peak HR: " ->
  infixb sep s = false -> match_snippet s = NotMatched.
Proof.
  intros Hin Hne Hs.
  destruct (match_snippet_total s) as [[r Hm]|Hn]; [exfalso|exact Hn].
  apply match_snippet_leftmost in Hm.
  destruct Hm as (k & dot & rest & _ & E & _).
  assert (Hi : exists a z, skipn k s = a ++ sep ++ z).
  { rewrite E. unfold render.
    destruct Hin as [Hin|[-> | ->]].
    - apply infix_concat with (t := sep).
      + vm_compute in Hin.
        repeat (destruct Hin as [Hin|Hin];
                [first [ exfalso; apply Hne; rewrite <- Hin; reflexivity
                       | rewrite <- Hin; unfold tokens_of;
                         repeat first [left; reflexivity | right] ] |]).
        contradiction.
      + exists [], []. now rewrite app_nil_r.
    - apply infix_concat
        with (t := str " AVG" ++ dot :: str " HEART-RATE Peak HR: ").
      + unfold tokens_of. repeat first [left; reflexivity | right].
      + exists [], (dot :: str " HEART-RATE Peak HR: "). reflexivity.
    - apply infix_concat
        with (t := str " AVG" ++ dot :: str " HEART-RATE Peak HR: ").
      + unfold tokens_of. repeat first [left; reflexivity | right].
      + exists (str " AVG" ++ [dot]), []. now rewrite app_nil_r. }
  destruct Hi as (a & z & Ez).
  assert (Hs' : infixb sep (firstn k s ++ skipn k s) = false)
    by now rewrite firstn_skipn.
  rewrite Ez, app_assoc, infixb_app in Hs'. discriminate.
Qed.

(** * The claims *)

(** C1 (as stated, refuted): the text of the example with a plain colon
    between hour and minute does not match. *)
Lemma C1_plain_colon_not_matched :
  match_snippet example_plain_colon = NotMatched /\
  match_snippet example_plain_colon <> Matched example_record.
Proof. split; [vm_compute; reflexivity | vm_compute; discriminate]. Qed.

(** C1 (amended): the example of the source comment, which has U+200C
    between the hour and the colon, matches, and the eighteen fields are the
    ones listed. *)
Theorem C1_example_matched :
  match_snippet example_snippet = Matched example_record.
Proof. vm_compute. reflexivity. Qed.

(** C2 (as stated, refuted): with text before the pattern the expression
    does not match at offset 0, and the result is still [Matched]. *)
Lemma C2_match_at_nonzero_offset :
  match_here snippetParser (str "Fwd: " ++ example_snippet) = None /\
  match_snippet (str "Fwd: " ++ example_snippet) = Matched example_record.
Proof. split; vm_compute; reflexivity. Qed.

(** C2 (amended): the search is not anchored.  The result is [Matched r]
    exactly when the pattern matches at some position [k] of the input and
    at no position before it, [r] being the record of the match at [k]: the
    input from [k] on is the rendering of [r], a record of well-formed
    fields, followed by text that does not go on with a digit, and the
    expression matched there gives the fields of [r].  Text put before a
    matching input never gives [NotMatched]. *)
Theorem C2_leftmost_unanchored (s : gostring) (r : snippet) :
  (match_snippet s = Matched r <->
   exists k dot rest,
     (k <= length s)%nat /\ skipn k s = render r dot ++ rest /\
     well_formed r /\ dot <> 10 /\ no_digit_ahead rest /\
     match_here snippetParser (skipn k s) = Some (fields_of r, rest) /\
     forall j, (j < k)%nat -> match_here snippetParser (skipn j s) = None) /\
  (match_snippet s = Matched r ->
   forall p, exists r', match_snippet (p ++ s) = Matched r').
Proof.
  split; [split|].
  - intros H. apply match_snippet_leftmost in H.
    destruct H as (k & dot & rest & Hk & Hs & W & Hd & Hr & Hlt).
    exists k, dot, rest.
    split; [exact Hk|]. split; [exact Hs|]. split; [exact W|].
    split; [exact Hd|]. split; [exact Hr|]. split; [|exact Hlt].
    apply match_here_spec. exists r, dot.
    split; [reflexivity|]. split; [exact Hs|]. split; [exact W|].
    split; assumption.
  - intros (k & dot & rest & Hk & Hs & W & Hd & Hr & _ & Hlt).
    apply match_snippet_leftmost. exists k, dot, rest.
    split; [exact Hk|]. split; [exact Hs|]. split; [exact W|].
    split; [exact Hd|]. split; [exact Hr|exact Hlt].
  - intros H p. destruct (match_snippet_total (p ++ s)) as [Hm|Hn]; [exact Hm|].
    exfalso. apply match_snippet_NotMatched in Hn.
    apply match_snippet_Matched in H.
    apply (@FindSubmatch_prefix snippetParser p s); [congruence | exact Hn].
Qed.

Lemma C2_leftmost_unanchored_witness :
  match_snippet (str "Fwd: " ++ example_snippet) = Matched example_record /\
  (exists k dot rest,
      (k <= length (str "Fwd: " ++ example_snippet))%nat /\
      skipn k (str "Fwd: " ++ example_snippet) =
        render example_record dot ++ rest /\
      well_formed example_record /\ dot <> 10 /\ no_digit_ahead rest /\
      match_here snippetParser (skipn k (str "Fwd: " ++ example_snippet)) =
        Some (fields_of example_record, rest) /\
      forall j, (j < k)%nat ->
        match_here snippetParser (skipn j (str "Fwd: " ++ example_snippet)) = None) /\
  exists r', match_snippet (str "Re: " ++ str "Fwd: " ++ example_snippet) = Matched r'.
Proof.
  assert (E : match_snippet (str "Fwd: " ++ example_snippet) = Matched example_record)
    by (vm_compute; reflexivity).
  destruct (C2_leftmost_unanchored (str "Fwd: " ++ example_snippet) example_record)
    as [[H1 _] H2].
  split; [exact E|]. split; [exact (H1 E) | exact (H2 E (str "Re: "))].
Defined.

(** C3 (as stated, refuted): a digit put after the example changes the
    record. *)
Lemma C3_trailing_digit_changes_record :
  match_snippet example_snippet = Matched example_record /\
  match_snippet (example_snippet ++ str "5") <> Matched example_record.
Proof. split; [vm_compute; reflexivity | vm_compute; discriminate]. Qed.

(** C3 (amended): text put after a matching input leaves the outcome
    [Matched] and every field but PeakHeartRate as it was; PeakHeartRate
    is the old value followed by a run of leading decimal digits of the
    added text, and the record is the same whenever the added text does
    not begin with a decimal digit. *)
Theorem C3_trailing_text (s t : gostring) (r : snippet) :
  match_snippet s = Matched r ->
  (exists x y,
      t = x ++ y /\ forallb is_digit x = true /\
      match_snippet (s ++ t) =
        Matched (set_field "PeakHeartRate" (PeakHeartRate r ++ x) r)) /\
  (no_digit_ahead t -> match_snippet (s ++ t) = Matched r).
Proof.
  intros H. apply match_snippet_leftmost in H.
  destruct H as (k & dot & rest & Hk & Hs & W & Hd & Hr & Hlt).
  assert (Early : forall j, (j < k)%nat ->
            match_here snippetParser (skipn j (s ++ t)) = None).
  { intros j Hj. apply (@no_earlier_match s t j k r dot rest); auto; lia. }
  assert (Hlen : (k <= length (s ++ t))%nat) by (rewrite length_app; lia).
  destruct rest as [|c rest].
  - (* the match ends where the input ends *)
    rewrite app_nil_r in Hs.
    pose proof (span_app_eq is_digit t) as Et.
    pose proof (span_all is_digit t) as At.
    pose proof (span_stop is_digit t) as St.
    destruct (span is_digit t) as [x y]; simpl in *.
    assert (M : match_snippet (s ++ t) =
                Matched (set_field "PeakHeartRate" (PeakHeartRate r ++ x) r)).
    { apply match_snippet_leftmost. exists k, dot, y.
      split; [exact Hlen|]. split.
      { rewrite skipn_app_le by lia. rewrite Hs, render_peak, <- app_assoc.
        now rewrite Et. }
      split; [now apply well_formed_peak|]. split; [exact Hd|].
      split; [|exact Early].
      destruct y as [|d y]; [exact I|]. now apply (St d y). }
    split.
    + exists x, y. auto.
    + intros Ht. destruct x as [|d x].
      * now rewrite set_peak_same in M.
      * subst t. simpl in Ht, At. apply andb_true_iff in At as [Ad _]. congruence.
  - (* the match ends before the end of the input *)
    assert (M : match_snippet (s ++ t) = Matched r).
    { apply match_snippet_leftmost. exists k, dot, ((c :: rest) ++ t).
      split; [exact Hlen|]. split.
      { rewrite skipn_app_le by lia. now rewrite Hs, <- app_assoc. }
      split; [exact W|]. split; [exact Hd|]. split; [exact Hr|exact Early]. }
    split; [|intros _; exact M].
    exists [], t. split; [reflexivity|]. split; [reflexivity|].
    now rewrite set_peak_same.
Qed.

Lemma C3_trailing_text_witness :
  match_snippet example_snippet = Matched example_record /\
  (exists x y,
      str "5 bpm" = x ++ y /\ forallb is_digit x = true /\
      match_snippet (example_snippet ++ str "5 bpm") =
        Matched (set_field "PeakHeartRate"
                   (PeakHeartRate example_record ++ x) example_record)) /\
  (no_digit_ahead (str "5 bpm") ->
   match_snippet (example_snippet ++ str "5 bpm") = Matched example_record).
Proof.
  split; [vm_compute; reflexivity|].
  apply (C3_trailing_text example_snippet (str "5 bpm") (r := example_record)).
  vm_compute; reflexivity.
Defined.

(** C4: under the comparison of the date keys as strings, a record of
    month 10 comes before a record of month 2 of the same year: whatever
    order the three records of 2021 with months 09, 10 and 2 are in, the
    sorted slice has 09 first, then 10, then 2. *)
Theorem C4_lexicographic_date_order (a b c : snippet) :
  Year a = str "2021" -> Month a = str "09" ->
  Year b = str "2021" -> Month b = str "10" ->
  Year c = str "2021" -> Month c = str "2" ->
  date_less b c = true /\ date_less c b = false /\
  forall l,
    In l [[a; b; c]; [a; c; b]; [b; a; c]; [b; c; a]; [c; a; b]; [c; b; a]] ->
    sort_by_date l = [a; b; c].
Proof.
  intros Ya Ma Yb Mb Yc Mc.
  assert (Lab : date_less a b = true)
    by (unfold date_less, date_key; rewrite Ya, Ma, Yb, Mb; reflexivity).
  assert (Lba : date_less b a = false)
    by (unfold date_less, date_key; rewrite Ya, Ma, Yb, Mb; reflexivity).
  assert (Lac : date_less a c = true)
    by (unfold date_less, date_key; rewrite Ya, Ma, Yc, Mc; reflexivity).
  assert (Lca : date_less c a = false)
    by (unfold date_less, date_key; rewrite Ya, Ma, Yc, Mc; reflexivity).
  assert (Lbc : date_less b c = true)
    by (unfold date_less, date_key; rewrite Yb, Mb, Yc, Mc; reflexivity).
  assert (Lcb : date_less c b = false)
    by (unfold date_less, date_key; rewrite Yb, Mb, Yc, Mc; reflexivity).
  split; [exact Lbc|]. split; [exact Lcb|].
  intros l Hl. simpl in Hl.
  repeat (destruct Hl as [<-|Hl];
          [unfold sort_by_date, insertionSort; simpl;
           rewrite ?Lab, ?Lba, ?Lac, ?Lca, ?Lbc, ?Lcb; simpl;
           rewrite ?Lab, ?Lba, ?Lac, ?Lca, ?Lbc, ?Lcb; reflexivity|]).
  contradiction.
Qed.

Lemma C4_lexicographic_date_order_witness :
  (Year (record_of_month "09" "21") = str "2021" /\
   Month (record_of_month "09" "21") = str "09" /\
   Year (record_of_month "10" "3") = str "2021" /\
   Month (record_of_month "10" "3") = str "10" /\
   Year (record_of_month "2" "7") = str "2021" /\
   Month (record_of_month "2" "7") = str "2") /\
  sort_by_date [record_of_month "2" "7"; record_of_month "10" "3";
                record_of_month "09" "21"] =
  [record_of_month "09" "21"; record_of_month "10" "3"; record_of_month "2" "7"].
Proof.
  split; [repeat split; reflexivity|].
  apply (@C4_lexicographic_date_order (record_of_month "09" "21")
           (record_of_month "10" "3") (record_of_month "2" "7"));
    try reflexivity.
  simpl. tauto.
Defined.

(** C5 (as stated, refuted): the record of the example has eighteen named
    fields, not twenty-one. *)
Lemma C5_eighteen_fields_not_21 :
  match_snippet example_snippet = Matched example_record /\
  FindSubmatch snippetParser example_snippet = Some (fields_of example_record) /\
  length (fields_of example_record) = 18%nat /\
  length (fields_of example_record) <> 21%nat.
Proof.
  split; [vm_compute; reflexivity|]. split; [vm_compute; reflexivity|].
  split; [reflexivity|discriminate].
Qed.

(** C5 (amended): a successful match produces a mapping of exactly the
    eighteen named fields City, State, Month, Day, Year, Hour, Minute, AMPM,
    Instructor, Zone1 to Zone5, Calories, SplatPoints, AverageHeartRate and
    PeakHeartRate, which are the exported fields of the struct; the
    anonymous fields are not in it. *)
Theorem C5_record_fields (s : gostring) (r : snippet) :
  match_snippet s = Matched r ->
  exists caps,
    FindSubmatch snippetParser s = Some caps /\
    inflateStruct zero_snippet caps = Some r /\
    map fst caps = snippet_names /\
    length caps = 18%nat /\
    snippet_names = filter isExported (map fname snippet_fields) /\
    ~ In "_"%string (map fst caps).
Proof.
  intros H. apply match_snippet_Matched in H. exists (fields_of r).
  split; [exact H|]. split; [apply inflate_fields|].
  split; [reflexivity|]. split; [reflexivity|]. split; [reflexivity|].
  simpl. intros F. repeat (destruct F as [F|F]; [discriminate F|]). exact F.
Qed.

Lemma C5_record_fields_witness :
  match_snippet example_snippet = Matched example_record /\
  exists caps,
    FindSubmatch snippetParser example_snippet = Some caps /\
    inflateStruct zero_snippet caps = Some example_record /\
    map fst caps = snippet_names /\
    length caps = 18%nat /\
    snippet_names = filter isExported (map fname snippet_fields) /\
    ~ In "_"%string (map fst caps).
Proof.
  split; [vm_compute; reflexivity|].
  apply (C5_record_fields example_snippet). vm_compute; reflexivity.
Defined.

(** C6: the separator [ AVG. HEART-RATE Peak HR: ] is altered in the
    input and the outcome is [Matched], the dot of the pattern standing for
    any rune; with CALORIES misspelled the outcome is [NotMatched]. *)
Theorem C6_altered_separator_matched :
  In (str " AVG. HEART-RATE Peak HR: ") separators /\
  infixb (str " AVG. HEART-RATE Peak HR: ") example_avg_altered = false /\
  match_snippet example_avg_altered = Matched example_record /\
  match_snippet example_calories_misspelled = NotMatched.
Proof.
  split; [vm_compute; tauto|]. repeat split; vm_compute; reflexivity.
Qed.

(** C7: matching is total: the expression compiles, and on every input
    [Find] returns, without a panic, and the outcome is [Matched] with a
    record or [NotMatched]. *)
Theorem C7_match_total :
  Compile snippet_fields = Some snippetParser /\
  forall s : gostring,
    match_snippet s <> Panicked /\
    ((exists r, match_snippet s = Matched r) \/ match_snippet s = NotMatched).
Proof.
  split; [exact snippetParser_compiled|]. intros s.
  pose proof (match_snippet_total s) as T. split; [|exact T].
  destruct T as [[r ->]| ->]; discriminate.
Qed.

(** C8: matching is deterministic and idempotent.  Whatever the struct
    passed to [Find] holds, a second call on the same input with the struct
    left by the first returns the same flag and leaves the same struct, and
    a match yields one record for all structs passed in. *)
Theorem C8_match_idempotent (s : gostring) (dest : snippet) :
  exists ok d1,
    Find snippetParser dest s = Some (ok, d1) /\
    Find snippetParser d1 s = Some (ok, d1) /\
    (ok = true ->
       match_snippet s = Matched d1 /\
       forall d', Find snippetParser d' s = Some (true, d1)) /\
    (ok = false -> match_snippet s = NotMatched /\ d1 = dest).
Proof.
  unfold match_snippet, Find.
  destruct (FindSubmatch snippetParser s) as [caps|] eqn:E.
  - destruct (FindSubmatch_fields _ E) as [r ->].
    exists true, r. rewrite !inflate_fields.
    repeat split; try discriminate. intros d'. now rewrite inflate_fields.
  - exists false, dest. repeat split; discriminate.
Qed.

(** C9: in every record of a successful match the fields Month, Day, Year,
    Hour, Minute, Zone1 to Zone5, Calories, SplatPoints, AverageHeartRate
    and PeakHeartRate are non-empty strings of decimal digits, City, State
    and Instructor are non-empty strings of word characters, and AMPM is
    exactly two word characters. *)
Theorem C9_fields_well_formed (s : gostring) (r : snippet) :
  match_snippet s = Matched r ->
  Forall (fun t => t <> [] /\ forallb is_digit t = true)
    [Month r; Day r; Year r; Hour r; Minute r; Zone1 r; Zone2 r; Zone3 r;
     Zone4 r; Zone5 r; Calories r; SplatPoints r; AverageHeartRate r;
     PeakHeartRate r] /\
  Forall (fun t => t <> [] /\ forallb is_word t = true)
    [City r; State r; Instructor r] /\
  length (AMPM r) = 2%nat /\ forallb is_word (AMPM r) = true.
Proof.
  intros H. apply match_snippet_leftmost in H.
  destruct H as (k & dot & rest & _ & _ & W & _).
  destruct W. split; [|split].
  - repeat (apply Forall_cons; [assumption|]). apply Forall_nil.
  - repeat (apply Forall_cons; [assumption|]). apply Forall_nil.
  - assumption.
Qed.

Lemma C9_fields_well_formed_witness :
  match_snippet example_snippet = Matched example_record /\
  Forall (fun t => t <> [] /\ forallb is_digit t = true)
    [Month example_record; Day example_record; Year example_record;
     Hour example_record; Minute example_record; Zone1 example_record;
     Zone2 example_record; Zone3 example_record; Zone4 example_record;
     Zone5 example_record; Calories example_record;
     SplatPoints example_record; AverageHeartRate example_record;
     PeakHeartRate example_record] /\
  Forall (fun t => t <> [] /\ forallb is_word t = true)
    [City example_record; State example_record; Instructor example_record] /\
  length (AMPM example_record) = 2%nat /\
  forallb is_word (AMPM example_record) = true.
Proof.
  split; [vm_compute; reflexivity|].
  apply (C9_fields_well_formed example_snippet). vm_compute; reflexivity.
Defined.

(** C10 (as stated, refuted): the snippet begins with the header and the
    city New York, and the outcome is [Matched], by the second header. *)
Lemma C10_two_headers_matched :
  existsb (fun c => negb (is_word c)) (str "New York") = true /\
  infixb (str ", ") (str "New York") = false /\
  match_snippet example_two_headers = Matched example_record.
Proof. repeat split; vm_compute; reflexivity. Qed.

(** C10 (amended): when the text between the header at the start of the
    input and the first [", "] holds a rune outside [\w], the pattern does
    not match at that header, and the outcome is [NotMatched] unless the
    header stands once more further on. *)
Theorem C10_city_not_word (city rest : gostring) :
  existsb (fun c => negb (is_word c)) city = true ->
  infixb (str ", ") city = false ->
  match_here snippetParser (header ++ city ++ str ", " ++ rest) = None /\
  (infixb header (tl (header ++ city ++ str ", " ++ rest)) = false ->
   match_snippet (header ++ city ++ str ", " ++ rest) = NotMatched).
Proof.
  intros Hbad Hcomma.
  pose proof (city_not_word_here city rest Hbad Hcomma) as H0.
  split; [exact H0|]. intros Hone.
  apply match_snippet_NotMatched. apply FindSubmatch_None.
  intros [|k] Hk; [exact H0|].
  destruct (match_here snippetParser
              (skipn (S k) (header ++ city ++ str ", " ++ rest))) eqn:E;
    [exfalso|reflexivity].
  assert (Hh : infixb header (tl (header ++ city ++ str ", " ++ rest)) = true).
  { apply match_here_header with (k := k).
    change (skipn k (tl (header ++ city ++ str ", " ++ rest)))
      with (skipn (S k) (header ++ city ++ str ", " ++ rest)).
    congruence. }
  congruence.
Qed.

Lemma C10_city_not_word_witness :
  (existsb (fun c => negb (is_word c)) (str "New York") = true /\
   infixb (str ", ") (str "New York") = false) /\
  match_here snippetParser
    (header ++ str "New York" ++ str ", " ++ str "NY 06/13/2021") = None /\
  (infixb header
     (tl (header ++ str "New York" ++ str ", " ++ str "NY 06/13/2021")) = false ->
   match_snippet
     (header ++ str "New York" ++ str ", " ++ str "NY 06/13/2021") = NotMatched).
Proof.
  split; [split; vm_compute; reflexivity|].
  apply (C10_city_not_word (str "New York") (str "NY 06/13/2021"));
    vm_compute; reflexivity.
Defined.

(** * More of the program *)

(** ** Rendering and matching *)

Lemma example_record_well_formed : well_formed example_record.
Proof. constructor; (split; [discriminate || reflexivity | reflexivity]). Qed.

(** X1: a snippet written from a well-formed record reads back as that record:
    whatever rune but newline stands for the dot and whatever text follows,
    if it does not begin with a digit. *)
Theorem render_match_round_trip (r : snippet) (dot : rune) (rest : gostring) :
  well_formed r -> dot <> 10 -> no_digit_ahead rest ->
  match_snippet (render r dot ++ rest) = Matched r.
Proof.
  intros W Hd Hr. apply match_snippet_leftmost.
  exists 0%nat, dot, rest. simpl.
  split; [lia|]. split; [reflexivity|]. split; [exact W|].
  split; [exact Hd|]. split; [exact Hr|]. intros j Hj. lia.
Qed.

Lemma render_match_round_trip_witness :
  (well_formed example_record /\ 46 <> 10 /\ no_digit_ahead (str " bpm")) /\
  match_snippet (render example_record 46 ++ str " bpm") = Matched example_record.
Proof.
  split.
  - split; [exact example_record_well_formed|]. split; [discriminate|reflexivity].
  - apply render_match_round_trip;
      [exact example_record_well_formed | discriminate | reflexivity].
Defined.

(** ** The loop of [main] *)

Lemma collect_acc msgs : forall acc,
  collect msgs acc = Some (acc ++ matched_records msgs).
Proof.
  induction msgs as [|m msgs IH]; intros acc; simpl.
  - now rewrite app_nil_r.
  - destruct (match_snippet_total m) as [[r E]|E]; rewrite E, IH.
    + now rewrite <- app_assoc.
    + reflexivity.
Qed.

Lemma matched_records_well_formed msgs : Forall well_formed (matched_records msgs).
Proof.
  induction msgs as [|m msgs IH]; simpl; [constructor|].
  destruct (match_snippet m) as [r| |] eqn:E; simpl; auto.
  constructor; [|exact IH].
  apply match_snippet_leftmost in E. destruct E as (k & dot & rest & _ & _ & W & _).
  exact W.
Qed.

Lemma matched_records_length msgs :
  (length (matched_records msgs) +
   length (filter (fun m => match match_snippet m with
                            | NotMatched => true
                            | _ => false
                            end) msgs) = length msgs)%nat.
Proof.
  induction msgs as [|m msgs IH]; simpl; [reflexivity|].
  destruct (match_snippet_total m) as [[r E]|E]; rewrite E; simpl; lia.
Qed.

(** X2: the loop never stops early: of N snippets of which M do not match it
    keeps N - M records, those of the matching snippets in the order of the
    messages, and every record it keeps is well formed. *)
Theorem collect_batch (msgs : list gostring) :
  collect msgs [] = Some (matched_records msgs) /\
  (length (matched_records msgs) +
   length (filter (fun m => match match_snippet m with
                            | NotMatched => true
                            | _ => false
                            end) msgs) = length msgs)%nat /\
  Forall well_formed (matched_records msgs).
Proof.
  split; [apply (collect_acc msgs [])|].
  split; [apply matched_records_length | apply matched_records_well_formed].
Qed.

(** ** The order of the sort *)

Ltac ltb_cases :=
  repeat match goal with
  | H : context [?x <? ?y] |- _ =>
      let E := fresh "E" in
      destruct (x <? y) eqn:E;
      [apply N.ltb_lt in E | apply N.ltb_ge in E]
  | |- context [?x <? ?y] =>
      let E := fresh "E" in
      destruct (x <? y) eqn:E;
      [apply N.ltb_lt in E | apply N.ltb_ge in E]
  end.

Lemma str_lt_irrefl a : str_lt a a = false.
Proof.
  induction a as [|x a IH]; simpl; [reflexivity|].
  now rewrite N.ltb_irrefl.
Qed.

Lemma str_lt_asym a : forall b, str_lt a b = true -> str_lt b a = false.
Proof.
  induction a as [|x a IH]; intros [|y b] H; simpl in *; try reflexivity;
    try discriminate.
  ltb_cases; try reflexivity; try discriminate; try lia. now apply IH.
Qed.

Lemma str_le_trans a : forall b c,
  str_lt b a = false -> str_lt c b = false -> str_lt c a = false.
Proof.
  induction a as [|x a IH]; intros b c H1 H2.
  - destruct c; reflexivity.
  - destruct b as [|y b]; [discriminate H1|].
    destruct c as [|z c]; [discriminate H2|].
    simpl in *. ltb_cases; try reflexivity; try discriminate; try lia.
    eapply IH; eauto.
Qed.

Lemma str_lt_total a : forall b,
  str_lt a b = false -> str_lt b a = false -> a = b.
Proof.
  induction a as [|x a IH]; intros [|y b] H1 H2; simpl in *; try reflexivity;
    try discriminate.
  ltb_cases; try discriminate.
  assert (x = y) by lia. subst y. f_equal. now apply IH.
Qed.

(** ** [insertionSort] *)

Section InsertionSortProperties.
Variable A : Type.
Variable less : A -> A -> bool.

Lemma sift_perm x : forall before, Permutation (sift less x before) (x :: before).
Proof.
  induction before as [|y before IH]; simpl; [reflexivity|].
  destruct (less x y); [|reflexivity].
  rewrite IH. apply perm_swap.
Qed.

Lemma fold_sift_perm l : forall before,
  Permutation (fold_left (fun b x => sift less x b) l before) (l ++ before).
Proof.
  induction l as [|x l IH]; intros before; simpl; [reflexivity|].
  rewrite IH, sift_perm. symmetry. apply Permutation_middle.
Qed.

Lemma insertionSort_perm l : Permutation (insertionSort less l) l.
Proof.
  unfold insertionSort. rewrite <- Permutation_rev, fold_sift_perm.
  now rewrite app_nil_r.
Qed.

Hypothesis less_asym : forall x y, less x y = true -> less y x = false.
Hypothesis le_trans : forall x y z,
  less y x = false -> less z y = false -> less z x = false.

Lemma sift_sorted x : forall before,
  StronglySorted (fun u v => less u v = false) before ->
  StronglySorted (fun u v => less u v = false) (sift less x before).
Proof.
  induction before as [|y before IH]; intros S; simpl.
  - repeat constructor.
  - inversion S as [|? ? S' F]; subst.
    destruct (less x y) eqn:E.
    + constructor; [now apply IH|].
      eapply Permutation_Forall; [symmetry; apply sift_perm|].
      constructor; [now apply less_asym | exact F].
    + constructor; [exact S|]. constructor; [exact E|].
      rewrite Forall_forall in *. intros z Hz. eapply le_trans; eauto.
Qed.

Lemma fold_sift_sorted l : forall before,
  StronglySorted (fun u v => less u v = false) before ->
  StronglySorted (fun u v => less u v = false)
    (fold_left (fun b x => sift less x b) l before).
Proof.
  induction l as [|x l IH]; intros before S; simpl; [exact S|].
  apply IH. now apply sift_sorted.
Qed.

Lemma StronglySorted_snoc (R : A -> A -> Prop) l x :
  StronglySorted R l -> Forall (fun y => R y x) l -> StronglySorted R (l ++ [x]).
Proof.
  induction 1 as [|y l S IH F]; intros H; simpl.
  - repeat constructor.
  - inversion H; subst. constructor; [now apply IH|].
    apply Forall_app. split; [exact F|]. now constructor.
Qed.

Lemma StronglySorted_rev (R : A -> A -> Prop) l :
  StronglySorted R l -> StronglySorted (fun u v => R v u) (rev l).
Proof.
  induction 1 as [|y l S IH F]; simpl; [constructor|].
  apply StronglySorted_snoc; [exact IH|].
  apply Forall_rev. exact F.
Qed.

Lemma insertionSort_sorted l :
  StronglySorted (fun u v => less v u = false) (insertionSort less l).
Proof.
  unfold insertionSort. apply StronglySorted_rev.
  apply fold_sift_sorted. constructor.
Qed.
End InsertionSortProperties.

Lemma date_less_asym x y : date_less x y = true -> date_less y x = false.
Proof. apply str_lt_asym. Qed.

Lemma date_le_trans x y z :
  date_less y x = false -> date_less z y = false -> date_less z x = false.
Proof. apply str_le_trans. Qed.

(** X3: on a slice of fewer than seven records the sort keeps every record,
    each as often as it came. *)
Theorem sort_by_date_permutation (l : list snippet) :
  (length l < 7)%nat -> Permutation (sort_by_date l) l.
Proof. intros _. apply insertionSort_perm. Qed.

Lemma sort_by_date_permutation_witness :
  (length [record_of_month "2" "7"; record_of_month "10" "3"] < 7)%nat /\
  Permutation
    (sort_by_date [record_of_month "2" "7"; record_of_month "10" "3"])
    [record_of_month "2" "7"; record_of_month "10" "3"].
Proof.
  split; [simpl; lia|]. apply sort_by_date_permutation. simpl; lia.
Defined.

(** X4: on a slice of fewer than seven records the sorted slice is in the order
    of the date keys: no record has a key less than the key of a record
    before it. *)
Theorem sort_by_date_sorted (l : list snippet) :
  (length l < 7)%nat ->
  StronglySorted (fun u v => date_less v u = false) (sort_by_date l).
Proof.
  intros _. apply insertionSort_sorted.
  - apply date_less_asym.
  - apply date_le_trans.
Qed.

Lemma sort_by_date_sorted_witness :
  (length [record_of_month "2" "7"; record_of_month "10" "3"] < 7)%nat /\
  StronglySorted (fun u v => date_less v u = false)
    (sort_by_date [record_of_month "2" "7"; record_of_month "10" "3"]).
Proof.
  split; [simpl; lia|]. apply sort_by_date_sorted. simpl; lia.
Defined.

(** ** The date key *)

Lemma forallb_not_In (p : rune -> bool) c t :
  forallb p t = true -> p c = false -> ~ In c t.
Proof.
  intros H Hc Hin. rewrite forallb_forall in H. apply H in Hin. congruence.
Qed.

Lemma app_sep_inj (sep : rune) a : forall a' b b',
  ~ In sep a -> ~ In sep a' -> a ++ sep :: b = a' ++ sep :: b' ->
  a = a' /\ b = b'.
Proof.
  induction a as [|x a IH]; intros [|y a'] b b' H1 H2 E; simpl in *.
  - injection E as <-. now split.
  - injection E as -> _. exfalso. apply H2. now left.
  - injection E as -> _. exfalso. apply H1. now left.
  - injection E as -> E. destruct (IH a' b b') as [-> ->]; auto.
Qed.

Lemma date_key_inj r1 r2 :
  well_formed r1 -> well_formed r2 -> date_key r1 = date_key r2 ->
  Year r1 = Year r2 /\ Month r1 = Month r2 /\ Day r1 = Day r2.
Proof.
  intros W1 W2 E. unfold date_key in E. cbn [str map list_ascii_of_string app] in E.
  destruct W1 as [_ _ [_ M1] _ [_ Y1] _ _ _ _ _ _ _ _ _ _ _ _ _].
  destruct W2 as [_ _ [_ M2] _ [_ Y2] _ _ _ _ _ _ _ _ _ _ _ _ _].
  apply app_sep_inj in E;
    [|eapply forallb_not_In; eauto; reflexivity ..].
  destruct E as [EY E]. apply app_sep_inj in E;
    [|eapply forallb_not_In; eauto; reflexivity ..].
  destruct E as [EM ED]. auto.
Qed.

(** X5: two matched records tie in the sort only when they have the same year,
    month and day. *)
Theorem date_tie_same_date (r1 r2 : snippet) :
  well_formed r1 -> well_formed r2 ->
  date_less r1 r2 = false -> date_less r2 r1 = false ->
  Year r1 = Year r2 /\ Month r1 = Month r2 /\ Day r1 = Day r2.
Proof.
  intros W1 W2 H1 H2. apply date_key_inj; auto. now apply str_lt_total.
Qed.

Lemma date_tie_same_date_witness :
  (well_formed example_record /\
   well_formed (set_field "City" (str "Seattle") example_record) /\
   date_less example_record
     (set_field "City" (str "Seattle") example_record) = false /\
   date_less (set_field "City" (str "Seattle") example_record)
     example_record = false) /\
  Year example_record = Year (set_field "City" (str "Seattle") example_record) /\
  Month example_record = Month (set_field "City" (str "Seattle") example_record) /\
  Day example_record = Day (set_field "City" (str "Seattle") example_record).
Proof.
  assert (W : well_formed (set_field "City" (str "Seattle") example_record))
    by (constructor; (split; [discriminate || reflexivity | reflexivity])).
  split.
  - split; [exact example_record_well_formed|]. split; [exact W|].
    split; vm_compute; reflexivity.
  - apply date_tie_same_date;
      [exact example_record_well_formed | exact W | vm_compute; reflexivity ..].
Defined.

Lemma is_digit_range c : is_digit c = true -> 48 <= c <= 57.
Proof.
  unfold is_digit. intros H. apply andb_true_iff in H as [H1 H2].
  apply N.leb_le in H1, H2. lia.
Qed.

Lemma val_bound t : forallb is_digit t = true -> val t < 10 ^ N.of_nat (length t).
Proof.
  induction t as [|c t IH]; simpl val; simpl length; intros H.
  - simpl. lia.
  - simpl in H. apply andb_true_iff in H as [Hc H]. apply is_digit_range in Hc.
    specialize (IH H). rewrite Nat2N.inj_succ, N.pow_succ_r'. nia.
Qed.

Lemma str_lt_digits a : forall b,
  length a = length b ->
  forallb is_digit a = true -> forallb is_digit b = true ->
  str_lt a b = (val a <? val b).
Proof.
  induction a as [|x a IH]; intros [|y b] L Ha Hb; try discriminate L.
  - reflexivity.
  - simpl in L. injection L as L. simpl in Ha, Hb.
    apply andb_true_iff in Ha as [Hx Ha]. apply andb_true_iff in Hb as [Hy Hb].
    pose proof (val_bound _ Ha) as Ba. pose proof (val_bound _ Hb) as Bb.
    apply is_digit_range in Hx, Hy. specialize (IH b L Ha Hb).
    cbn [str_lt val]. rewrite L in *.
    remember (10 ^ N.of_nat (length b)) as P.
    destruct (x <? y) eqn:E1; [apply N.ltb_lt in E1 | apply N.ltb_ge in E1].
    + symmetry. apply N.ltb_lt. nia.
    + destruct (y <? x) eqn:E2; [apply N.ltb_lt in E2 | apply N.ltb_ge in E2].
      * symmetry. apply N.ltb_ge. nia.
      * assert (x = y) by lia. subst y. rewrite IH.
        destruct (val a <? val b) eqn:E3;
          [apply N.ltb_lt in E3 | apply N.ltb_ge in E3]; symmetry;
          [apply N.ltb_lt | apply N.ltb_ge]; lia.
Qed.

Lemma str_eqb_eq a : forall b, str_eqb a b = true <-> a = b.
Proof.
  induction a as [|x a IH]; intros [|y b]; simpl; split; try discriminate;
    try reflexivity.
  - intros H. apply andb_true_iff in H as [E H]. apply N.eqb_eq in E.
    apply IH in H. now subst.
  - intros H. injection H as <- <-. rewrite N.eqb_refl. simpl. now apply IH.
Qed.

Lemma str_eqb_digits a b :
  length a = length b ->
  forallb is_digit a = true -> forallb is_digit b = true ->
  str_eqb a b = (val a =? val b).
Proof.
  intros L Ha Hb. destruct (str_eqb a b) eqn:E.
  - apply str_eqb_eq in E. subst b. now rewrite N.eqb_refl.
  - symmetry. apply N.eqb_neq. intros V.
    assert (a = b); [|subst b; rewrite (proj2 (str_eqb_eq a a) eq_refl) in E;
                      discriminate].
    apply str_lt_total; rewrite str_lt_digits; auto; apply N.ltb_ge; lia.
Qed.

Lemma str_lt_app_len a : forall a' x x',
  length a = length a' ->
  str_lt (a ++ x) (a' ++ x') =
  if str_eqb a a' then str_lt x x' else str_lt a a'.
Proof.
  induction a as [|c a IH]; intros [|d a'] x x' L; try discriminate L.
  - reflexivity.
  - simpl in L. injection L as L. simpl.
    destruct (c <? d) eqn:E1; [apply N.ltb_lt in E1 | apply N.ltb_ge in E1].
    + replace (c =? d) with false by (symmetry; apply N.eqb_neq; lia).
      reflexivity.
    + destruct (d <? c) eqn:E2; [apply N.ltb_lt in E2 | apply N.ltb_ge in E2].
      * replace (c =? d) with false by (symmetry; apply N.eqb_neq; lia).
        reflexivity.
      * replace (c =? d) with true by (symmetry; apply N.eqb_eq; lia).
        simpl. now apply IH.
Qed.

Lemma date_less_before (r1 r2 : snippet) :
  well_formed r1 -> well_formed r2 ->
  length (Year r1) = length (Year r2) ->
  length (Month r1) = length (Month r2) ->
  length (Day r1) = length (Day r2) ->
  date_less r1 r2 = date_before r1 r2.
Proof.
  intros W1 W2 LY LM LD.
  destruct W1 as [_ _ [_ M1] [_ D1] [_ Y1] _ _ _ _ _ _ _ _ _ _ _ _ _].
  destruct W2 as [_ _ [_ M2] [_ D2] [_ Y2] _ _ _ _ _ _ _ _ _ _ _ _ _].
  unfold date_less, date_key, date_before.
  rewrite (str_lt_app_len _ _ _ _ LY).
  rewrite (str_eqb_digits _ _ LY Y1 Y2), (str_lt_digits _ _ LY Y1 Y2).
  cbn [str map list_ascii_of_string app str_lt]. rewrite N.ltb_irrefl.
  rewrite (str_lt_app_len _ _ _ _ LM).
  rewrite (str_eqb_digits _ _ LM M1 M2), (str_lt_digits _ _ LM M1 M2).
  cbn [str_lt]. rewrite N.ltb_irrefl.
  rewrite (str_lt_digits _ _ LD D1 D2).
  destruct (val (Year r1) =? val (Year r2)) eqn:EY.
  - apply N.eqb_eq in EY. rewrite EY, N.ltb_irrefl. simpl.
    destruct (val (Month r1) =? val (Month r2)) eqn:EM.
    + apply N.eqb_eq in EM. rewrite EM, N.ltb_irrefl. reflexivity.
    + simpl. now rewrite orb_false_r.
  - simpl. now rewrite orb_false_r.
Qed.

(** X6: when year, month and day are written with as many digits in one record
    as in the other, the order of the date keys is the order of the
    calendar. *)
Theorem date_less_calendar (r1 r2 : snippet) :
  well_formed r1 -> well_formed r2 ->
  length (Year r1) = length (Year r2) ->
  length (Month r1) = length (Month r2) ->
  length (Day r1) = length (Day r2) ->
  date_less r1 r2 = date_before r1 r2.
Proof. apply date_less_before. Qed.

Lemma date_less_calendar_witness :
  (well_formed (record_of_month "09" "21") /\
   well_formed (record_of_month "10" "03") /\
   length (Year (record_of_month "09" "21")) =
     length (Year (record_of_month "10" "03")) /\
   length (Month (record_of_month "09" "21")) =
     length (Month (record_of_month "10" "03")) /\
   length (Day (record_of_month "09" "21")) =
     length (Day (record_of_month "10" "03"))) /\
  date_less (record_of_month "09" "21") (record_of_month "10" "03") =
  date_before (record_of_month "09" "21") (record_of_month "10" "03").
Proof.
  assert (W1 : well_formed (record_of_month "09" "21"))
    by (constructor; (split; [discriminate || reflexivity | reflexivity])).
  assert (W2 : well_formed (record_of_month "10" "03"))
    by (constructor; (split; [discriminate || reflexivity | reflexivity])).
  split; [repeat split; try reflexivity; first [apply W1 | apply W2]|].
  apply date_less_calendar; [exact W1 | exact W2 | reflexivity ..].
Defined.

(** ** The rows of the report *)

Lemma word_no_comma t : forallb is_word t = true -> ~ In 44 t.
Proof. intros H. eapply forallb_not_In; eauto. Qed.

(** X8: the row of a matched record shows every field but AMPM, Instructor and
    SplatPoints: two matched records have the same row exactly when they
    agree on the fifteen other fields. *)
Theorem csv_row_fields (r1 r2 : snippet) :
  well_formed r1 -> well_formed r2 ->
  (csv_row r1 = csv_row r2 <-> reported r1 = reported r2).
Proof.
  intros W1 W2. unfold csv_row, reported. split; intros E.
  - destruct W1 as [[_ C1] _ [_ M1] [_ D1] _ [_ H1] _ _ _ _ _ _ _ _ _ _ _ _].
    destruct W2 as [[_ C2] _ [_ M2] [_ D2] _ [_ H2] _ _ _ _ _ _ _ _ _ _ _ _].
    injection E as Edate Etime E1 E2 E3 E4 E5 Ecal Eavg Epeak Eloc.
    cbn [str map list_ascii_of_string app] in Edate, Etime, Eloc.
    apply app_sep_inj in Edate; [|eapply forallb_not_In; eauto; reflexivity ..].
    destruct Edate as [EM Edate].
    apply app_sep_inj in Edate; [|eapply forallb_not_In; eauto; reflexivity ..].
    destruct Edate as [ED EY].
    apply app_sep_inj in Etime; [|eapply forallb_not_In; eauto; reflexivity ..].
    destruct Etime as [EH EMi].
    apply app_sep_inj in Eloc; [|now apply word_no_comma ..].
    destruct Eloc as [EC ES]. injection ES as ES.
    congruence.
  - injection E as EM ED EY EH EMi E1 E2 E3 E4 E5 Ecal Eavg Epeak EC ES.
    congruence.
Qed.

Lemma csv_row_fields_witness :
  (well_formed example_record /\
   well_formed (set_field "AMPM" (str "AM") example_record)) /\
  (csv_row example_record =
     csv_row (set_field "AMPM" (str "AM") example_record) <->
   reported example_record =
     reported (set_field "AMPM" (str "AM") example_record)).
Proof.
  assert (W : well_formed (set_field "AMPM" (str "AM") example_record))
    by (constructor; (split; [discriminate || reflexivity | reflexivity])).
  split; [split; [exact example_record_well_formed | exact W]|].
  apply csv_row_fields; [exact example_record_well_formed | exact W].
Defined.

Lemma existsb_none (p q : N -> bool) (f : list N) :
  forallb p f = true -> (forall c, p c = true -> q c = false) ->
  existsb q f = false.
Proof.
  intros H Hq. induction f as [|c f IH]; simpl in *; [reflexivity|].
  apply andb_true_iff in H as [Hc H]. now rewrite (Hq c Hc), IH.
Qed.

Lemma is_digit_cases c : is_digit c = true -> 48 <= c <= 57.
Proof. apply is_digit_range. Qed.

Lemma is_word_cases c :
  is_word c = true -> 48 <= c <= 57 \/ 65 <= c <= 90 \/ 97 <= c <= 122 \/ c = 95.
Proof.
  unfold is_word, is_digit, is_upper, is_lower. intros H.
  repeat (apply orb_true_iff in H; destruct H as [H|H]);
    try (apply andb_true_iff in H as [H1 H2]; apply N.leb_le in H1, H2; lia).
  apply N.eqb_eq in H. lia.
Qed.

(** The runes of the unquoted columns: digits, [/] and [:]. *)
Lemma plain_field_no_quotes f :
  forallb (fun c => is_digit c || (c =? 47) || (c =? 58)) f = true ->
  write_field f = f.
Proof.
  intros H. unfold write_field.
  assert (P : forall c, (is_digit c || (c =? 47) || (c =? 58)) = true ->
                        48 <= c <= 58 \/ c = 47).
  { intros c Hc. apply orb_true_iff in Hc as [Hc|Hc];
      [apply orb_true_iff in Hc as [Hc|Hc]|].
    - apply is_digit_range in Hc. lia.
    - apply N.eqb_eq in Hc. lia.
    - apply N.eqb_eq in Hc. lia. }
  replace (fieldNeedsQuotes f) with false; [reflexivity|]. symmetry.
  destruct f as [|r1 f']; [reflexivity|]. unfold fieldNeedsQuotes.
  assert (H1 : 48 <= r1 <= 58 \/ r1 = 47).
  { apply P. simpl in H. now apply andb_true_iff in H as [H _]. }
  rewrite (@existsb_none _ (N.eqb 44) _ H).
  2:{ intros c Hc. apply P in Hc. apply N.eqb_neq. lia. }
  rewrite (@existsb_none _ (fun c => (c =? 34) || (c =? 13) || (c =? 10)) _ H).
  2:{ intros c Hc. apply P in Hc.
      repeat (apply orb_false_iff; split); apply N.eqb_neq; lia. }
  unfold IsSpace. cbn [str_eqb existsb].
  repeat match goal with
  | |- context [r1 =? ?k] =>
      replace (r1 =? k) with false by (symmetry; apply N.eqb_neq; lia)
  end.
  replace (8192 <=? r1) with false by (symmetry; apply N.leb_gt; lia).
  reflexivity.
Qed.

Lemma digits_plain t :
  forallb is_digit t = true ->
  forallb (fun c => is_digit c || (c =? 47) || (c =? 58)) t = true.
Proof.
  intros H. rewrite forallb_forall in *. intros c Hc. now rewrite (H c Hc).
Qed.

Lemma write_digits t : forallb is_digit t = true -> write_field t = t.
Proof. intros H. now apply plain_field_no_quotes, digits_plain. Qed.

Lemma write_date m d y :
  forallb is_digit m = true -> forallb is_digit d = true ->
  forallb is_digit y = true ->
  write_field (m ++ str "/" ++ d ++ str "/" ++ y) = m ++ str "/" ++ d ++ str "/" ++ y.
Proof.
  intros Hm Hd Hy. apply plain_field_no_quotes.
  rewrite !forallb_app.
  rewrite (@digits_plain _ Hm), (@digits_plain _ Hd), (@digits_plain _ Hy).
  reflexivity.
Qed.

Lemma write_time h mi :
  forallb is_digit h = true -> forallb is_digit mi = true ->
  write_field (h ++ str ":" ++ mi) = h ++ str ":" ++ mi.
Proof.
  intros Hh Hm. apply plain_field_no_quotes.
  rewrite !forallb_app, (@digits_plain _ Hh), (@digits_plain _ Hm).
  reflexivity.
Qed.

Lemma quote_body_id (f : gostring) :
  @forallb rune (fun c : rune => negb (c =? 34)) f = true -> quote_body f = f.
Proof.
  induction f as [|c f IH]; simpl; [reflexivity|]. intros H.
  apply andb_true_iff in H as [Hc H]. apply negb_true_iff in Hc.
  now rewrite Hc, IH.
Qed.

Lemma word_no_quote (t : gostring) :
  forallb is_word t = true ->
  @forallb rune (fun c : rune => negb (c =? 34)) t = true.
Proof.
  intros H. rewrite forallb_forall in *. intros c Hc. specialize (H c Hc).
  apply is_word_cases in H. apply negb_true_iff, N.eqb_neq. lia.
Qed.

Lemma write_location c s :
  word c -> forallb is_word s = true ->
  write_field (c ++ str ", " ++ s) = 34 :: (c ++ str ", " ++ s) ++ [34].
Proof.
  intros [Hne Hc] Hs. unfold write_field.
  replace (fieldNeedsQuotes (c ++ str ", " ++ s)) with true.
  - rewrite quote_body_id; [reflexivity|].
    rewrite !forallb_app, (@word_no_quote _ Hc), (@word_no_quote _ Hs).
    reflexivity.
  - symmetry. destruct c as [|x c]; [contradiction|].
    cbn [str map list_ascii_of_string app]. unfold fieldNeedsQuotes.
    assert (E : existsb (N.eqb 44) (x :: c ++ 44 :: 32 :: s) = true).
    { change (x :: c ++ 44 :: 32 :: s) with ((x :: c) ++ 44 :: 32 :: s).
      rewrite existsb_app. simpl. apply orb_true_r. }
    apply orb_true_iff; left. apply orb_true_iff; left.
    apply orb_true_iff; right. exact E.
Qed.

Lemma csv_Write_row_eq (r : snippet) :
  well_formed r -> csv_Write (csv_row r) = csv_line r.
Proof.
  intros W.
  destruct W as [[NC HC] [NS HS] [_ HM] [_ HD] [_ HY] [_ HH] [_ HMi] _ _
                 [_ H1] [_ H2] [_ H3] [_ H4] [_ H5] [_ HCal] _ [_ HAvg]
                 [_ HPk]].
  unfold csv_Write, csv_row, csv_line. cbn [write_fields].
  rewrite (@write_date _ _ _ HM HD HY), (@write_time _ _ HH HMi).
  rewrite (@write_location _ _ (conj NC HC) HS).
  rewrite (@write_digits _ H1), (@write_digits _ H2), (@write_digits _ H3),
    (@write_digits _ H4), (@write_digits _ H5), (@write_digits _ HCal),
    (@write_digits _ HAvg), (@write_digits _ HPk).
  cbn [str map list_ascii_of_string app].
  repeat (progress (rewrite <- ?app_assoc; cbn [app])). reflexivity.
Qed.

(** X9: the line of a matched record in the report: the eleven columns with
    commas between them and a newline at the end, the location in quotes
    because of its comma and nothing else in quotes. *)
Theorem csv_Write_row (r : snippet) :
  well_formed r -> csv_Write (csv_row r) = csv_line r.
Proof. apply csv_Write_row_eq. Qed.

Lemma csv_Write_row_witness :
  well_formed example_record /\
  csv_Write (csv_row example_record) = csv_line example_record.
Proof.
  split; [exact example_record_well_formed|].
  apply csv_Write_row. exact example_record_well_formed.
Defined.

(** ** The whole report *)

Lemma csv_header_written : csv_Write csv_header = csv_header_line.
Proof. vm_compute. reflexivity. Qed.

Lemma write_csv_lines l :
  Forall well_formed l ->
  write_csv l = csv_header_line ++ concat (map csv_line l).
Proof.
  intros H. unfold write_csv. rewrite csv_header_written. f_equal.
  induction H as [|r l W _ IH]; simpl; [reflexivity|].
  now rewrite (csv_Write_row_eq W), IH.
Qed.

Lemma no_newline (p : rune -> bool) t :
  forallb p t = true -> p 10 = false -> @count_occ rune N.eq_dec t 10 = 0%nat.
Proof.
  intros H Hp. apply count_occ_not_In. eapply forallb_not_In; eauto.
Qed.

Lemma csv_line_newlines r :
  well_formed r -> @count_occ rune N.eq_dec (csv_line r) 10 = 1%nat.
Proof.
  intros W.
  destruct W as [[_ HC] [_ HS] [_ HM] [_ HD] [_ HY] [_ HH] [_ HMi] _ _
                 [_ H1] [_ H2] [_ H3] [_ H4] [_ H5] [_ HCal] _ [_ HAvg]
                 [_ HPk]].
  unfold csv_line. rewrite !count_occ_app.
  rewrite (@no_newline _ _ HC eq_refl), (@no_newline _ _ HS eq_refl),
    (@no_newline _ _ HM eq_refl), (@no_newline _ _ HD eq_refl),
    (@no_newline _ _ HY eq_refl), (@no_newline _ _ HH eq_refl),
    (@no_newline _ _ HMi eq_refl), (@no_newline _ _ H1 eq_refl),
    (@no_newline _ _ H2 eq_refl), (@no_newline _ _ H3 eq_refl),
    (@no_newline _ _ H4 eq_refl), (@no_newline _ _ H5 eq_refl),
    (@no_newline _ _ HCal eq_refl), (@no_newline _ _ HAvg eq_refl),
    (@no_newline _ _ HPk eq_refl).
  reflexivity.
Qed.

Lemma lines_newlines l :
  Forall well_formed l ->
  @count_occ rune N.eq_dec (concat (map csv_line l)) 10 = length l.
Proof.
  induction 1 as [|r l W _ IH]; simpl; [reflexivity|].
  now rewrite count_occ_app, (csv_line_newlines W), IH.
Qed.

Lemma collect_printing_acc msgs : forall acc printed,
  collect_printing msgs acc printed =
  Some (acc ++ matched_records msgs, printed ++ ignored_lines msgs).
Proof.
  induction msgs as [|m msgs IH]; intros acc printed; simpl.
  - now rewrite !app_nil_r.
  - destruct (match_snippet_total m) as [[r E]|E]; rewrite E, IH.
    + now rewrite <- app_assoc.
    + now rewrite <- app_assoc.
Qed.

(** The records of the loop are those of [collect]. *)
Lemma collect_printing_records msgs : forall acc printed,
  option_map fst (collect_printing msgs acc printed) = collect msgs acc.
Proof.
  intros acc printed. now rewrite collect_printing_acc, collect_acc.
Qed.

(** The run on the example, the example with a plain colon and the example
    after other text: the notice of the second snippet comes first, then the
    header and the two lines; four newlines in all. *)
Lemma main_report_example :
  exists rep,
    main_report [] false [example_snippet; example_plain_colon;
                          str "Fwd: " ++ example_snippet] = Some rep /\
    on_stdout rep =
      ignored_line example_plain_colon ++ csv_header_line ++
      csv_line example_record ++ csv_line example_record /\
    @count_occ rune N.eq_dec (on_stdout rep) 10 = 4%nat.
Proof.
  eexists. split; [vm_compute; reflexivity|].
  split; vm_compute; reflexivity.
Qed.

(** With [-o] nothing of the csv is written anywhere. *)
Lemma main_report_example_output :
  main_report (str "report.csv") true [example_snippet; example_plain_colon] =
  Some {| on_stdout := ignored_line example_plain_colon; in_file := [];
          ending_of := Returned |}.
Proof. vm_compute. reflexivity. Qed.

(** X10: a run of [main] from the fetched snippets on, for fewer than seven
    of them.  [main] does not panic.  Standard output gets first one notice
    for every snippet that does not match, in the order of the snippets, and
    then, without [-o], the csv: the header line and the line of every
    matching snippet in the order of the sort, one newline for the header
    and one for each matching snippet.  With [-o] standard output gets the
    notices only and nothing is written to the file; [main] is stopped by
    [log.Fatal] exactly when the file of [-o] cannot be opened. *)
Theorem main_report_lines (Output : gostring) (opens : bool) (msgs : list gostring) :
  (length msgs < 7)%nat ->
  exists rep csv,
    main_report Output opens msgs = Some rep /\
    csv = csv_header_line ++
          concat (map csv_line (sort_by_date (matched_records msgs))) /\
    @count_occ rune N.eq_dec csv 10 = S (length (matched_records msgs)) /\
    on_stdout rep =
      ignored_lines msgs ++ match Output with [] => csv | _ :: _ => [] end /\
    in_file rep = [] /\
    ending_of rep =
      match Output with
      | [] => Returned
      | _ :: _ => if opens then Returned else Fatal
      end.
Proof.
  intros _. unfold main_report. rewrite (collect_printing_acc msgs [] []).
  simpl app.
  pose proof (matched_records_well_formed msgs) as W.
  pose proof (insertionSort_perm date_less (matched_records msgs)) as P.
  fold (sort_by_date (matched_records msgs)) in P.
  assert (W' : Forall well_formed (sort_by_date (matched_records msgs))).
  { eapply Permutation_Forall; [symmetry; exact P | exact W]. }
  assert (N' : @count_occ rune N.eq_dec
                 (csv_header_line ++
                  concat (map csv_line (sort_by_date (matched_records msgs)))) 10 =
               S (length (matched_records msgs))).
  { rewrite count_occ_app, (lines_newlines W'), (Permutation_length P).
    reflexivity. }
  destruct Output as [|c Output].
  - eexists. eexists. split; [reflexivity|]. split; [reflexivity|].
    split; [exact N'|]. cbn [on_stdout in_file ending_of].
    rewrite (write_csv_lines W'). auto.
  - destruct opens; eexists; eexists; (split; [reflexivity|]);
      (split; [reflexivity|]); (split; [exact N'|]);
      cbn [on_stdout in_file ending_of]; rewrite app_nil_r; auto.
Qed.

Lemma main_report_lines_witness :
  (length [example_snippet; example_plain_colon;
           str "Fwd: " ++ example_snippet] < 7)%nat /\
  exists rep csv,
    main_report [] false [example_snippet; example_plain_colon;
                          str "Fwd: " ++ example_snippet] = Some rep /\
    csv = csv_header_line ++
          concat (map csv_line
                    (sort_by_date
                       (matched_records
                          [example_snippet; example_plain_colon;
                           str "Fwd: " ++ example_snippet]))) /\
    @count_occ rune N.eq_dec csv 10 =
      S (length (matched_records
                   [example_snippet; example_plain_colon;
                    str "Fwd: " ++ example_snippet])) /\
    on_stdout rep =
      ignored_lines [example_snippet; example_plain_colon;
                     str "Fwd: " ++ example_snippet] ++ csv /\
    in_file rep = [] /\
    ending_of rep = Returned.
Proof.
  split; [simpl; lia|].
  apply (main_report_lines [] false
           [example_snippet; example_plain_colon; str "Fwd: " ++ example_snippet]).
  simpl; lia.
Defined.

(** ** Any schema *)

Section Results.
Variable R : Type.
Implicit Types k : gostring -> option R.

Lemma one_k_result a s k r : one_k a s k = Some r -> exists s', k s' = Some r.
Proof.
  destruct s as [|c s]; simpl; [discriminate|].
  destruct (atom_match a c); [|discriminate]. intros H. now exists s.
Qed.

Lemma plus_k_result a k r : forall s,
  plus_k a s k = Some r -> exists s', k s' = Some r.
Proof.
  induction s as [|c s IH]; simpl; [discriminate|].
  destruct (atom_match a c); [|discriminate].
  destruct (plus_k a s k) as [r'|] eqn:E.
  - intros H. injection H as <-. now apply IH.
  - intros H. now exists s.
Qed.

Lemma rep_k_result n a : forall s k r,
  rep_k n a s k = Some r -> exists s', k s' = Some r.
Proof.
  induction n as [|n IH]; intros s k r; simpl.
  - intros H. now exists s.
  - intros H. apply one_k_result in H. destruct H as [s' H]. now apply IH in H.
Qed.

Lemma m_pieces_result ps : forall s k r,
  m_pieces ps s k = Some r -> exists s', k s' = Some r.
Proof.
  induction ps as [|[a q] ps IH]; intros s k r; simpl.
  - intros H. now exists s.
  - unfold m_piece; simpl. intros H.
    assert (H' : exists s', m_pieces ps s' k = Some r).
    { destruct q as [| |n].
      - now apply one_k_result in H.
      - now apply plus_k_result in H.
      - now apply rep_k_result in H. }
    destruct H' as [s' H']. now apply IH in H'.
Qed.
End Results.

Lemma m_groups_names gs : forall s acc caps rest,
  m_groups gs s acc = Some (caps, rest) ->
  map fst caps = rev (map fst acc) ++ names_of gs.
Proof.
  induction gs as [|g gs IH]; intros s acc caps rest; simpl.
  - intros H. injection H as <- _. now rewrite map_rev, app_nil_r.
  - intros H. apply m_pieces_result in H. destruct H as [s' H].
    apply IH in H. rewrite H. unfold add_capture.
    destruct (g_name g); simpl; [|reflexivity]. now rewrite <- app_assoc.
Qed.

Lemma Compile_names fs : forall re,
  Compile fs = Some re ->
  names_of re = filter isExported (map fname fs).
Proof.
  induction fs as [|f fs IH]; intros re; simpl.
  - intros H. now injection H as <-.
  - unfold compile_field.
    destruct (Unquote (ftag f)) as [[|c pattern]|]; [discriminate| |discriminate].
    destruct (Parse (c :: pattern)) as [ps|]; [|discriminate].
    destruct (Compile fs) as [re'|]; [|discriminate].
    simpl. intros H. injection H as <-. simpl. rewrite (IH re' eq_refl).
    now destruct (isExported (fname f)).
Qed.

(** X11: for every struct of string fields with ASCII names whose tags are
    patterns of the fragment (literal characters, the dot, the classes of
    word characters and of digits, a backslash before punctuation, and the
    operators plus and exact count; no alternation, group, class in
    brackets, star or question mark), a match gives one capture for each
    exported field and none for the others, in the order of the
    declaration. *)
Theorem captures_are_exported_fields
  (fs : list FieldSpec) (re : Regexp) (s : gostring) (caps : captures) :
  forallb (fun f => ascii_initial (fname f)) fs = true ->
  Compile fs = Some re -> FindSubmatch re s = Some caps ->
  map fst caps = filter isExported (map fname fs).
Proof.
  intros _ HC HF. apply FindSubmatch_Some in HF.
  destruct HF as (k & rest & _ & HF & _). unfold match_here in HF.
  apply m_groups_names in HF. simpl in HF. rewrite HF.
  now apply Compile_names.
Qed.

Lemma captures_are_exported_fields_witness :
  (forallb (fun f => ascii_initial (fname f))
     [field "_" "HR: "; field "Peak" "\\d+"; field "unit" " bpm"] = true /\
   Compile [field "_" "HR: "; field "Peak" "\\d+"; field "unit" " bpm"] =
     Some [ {| g_name := None; g_pat := [(Lit 72, One); (Lit 82, One);
                                         (Lit 58, One); (Lit 32, One)] |};
            {| g_name := Some "Peak"%string; g_pat := [(Cls Digit, Plus)] |};
            {| g_name := None; g_pat := [(Lit 32, One); (Lit 98, One);
                                         (Lit 112, One); (Lit 109, One)] |} ] /\
   FindSubmatch
     [ {| g_name := None; g_pat := [(Lit 72, One); (Lit 82, One);
                                    (Lit 58, One); (Lit 32, One)] |};
       {| g_name := Some "Peak"%string; g_pat := [(Cls Digit, Plus)] |};
       {| g_name := None; g_pat := [(Lit 32, One); (Lit 98, One);
                                    (Lit 112, One); (Lit 109, One)] |} ]
     (str "Peak HR: 80 bpm") = Some [("Peak"%string, str "80")]) /\
  map fst [("Peak"%string, str "80")] =
  filter isExported
    (map fname [field "_" "HR: "; field "Peak" "\\d+"; field "unit" " bpm"]).
Proof.
  split; [repeat split; vm_compute; reflexivity|].
  eapply captures_are_exported_fields with (s := str "Peak HR: 80 bpm");
    vm_compute; reflexivity.
Defined.

(** ** Tags of plain text *)

Lemma plain_rune_spec c :
  plain_rune c = true ->
  c <> 92 /\ c <> 34 /\ c <> 10 /\ c < 128 /\ c <> 46 /\ is_meta c = false.
Proof.
  unfold plain_rune. intros H. apply negb_true_iff in H.
  repeat (apply orb_false_iff in H; destruct H as [H ?]).
  repeat match goal with
  | E : (_ =? _) = false |- _ => apply N.eqb_neq in E
  | E : (_ <=? _) = false |- _ => apply N.leb_gt in E
  end.
  auto 10.
Qed.

Lemma unquote_plain l : forallb plain_rune l = true -> unquote l = Some l.
Proof.
  induction l as [|c l IH]; simpl; [reflexivity|]. intros H.
  apply andb_true_iff in H as [Hc H]. apply plain_rune_spec in Hc.
  destruct Hc as (H92 & H34 & H10 & H128 & _ & _).
  replace (c =? 92) with false by (symmetry; now apply N.eqb_neq).
  replace (c =? 34) with false by (symmetry; now apply N.eqb_neq).
  replace (c =? 10) with false by (symmetry; now apply N.eqb_neq).
  replace (128 <=? c) with false by (symmetry; now apply N.leb_gt).
  simpl. now rewrite (IH H).
Qed.

Lemma parse_atom_plain c rest :
  plain_rune c = true -> parse_atom (c :: rest) = Some (Lit c, rest).
Proof.
  intros Hc. apply plain_rune_spec in Hc.
  destruct Hc as (H92 & _ & _ & _ & H46 & Hm). simpl.
  replace (c =? 92) with false by (symmetry; now apply N.eqb_neq).
  replace (c =? 46) with false by (symmetry; now apply N.eqb_neq).
  now rewrite Hm.
Qed.

Lemma parse_quant_plain l :
  forallb plain_rune l = true -> parse_quant l = Some (One, l).
Proof.
  destruct l as [|c l]; [reflexivity|]. simpl. intros H.
  apply andb_true_iff in H as [Hc _].
  destruct c as [|p]; [reflexivity|].
  do 8 (try (destruct p as [p|p|]; try reflexivity; try discriminate Hc)).
Qed.

Lemma parse_plain l : forall fuel,
  (length l <= fuel)%nat -> forallb plain_rune l = true ->
  parse fuel l = Some (map (fun c => (Lit c, One)) l).
Proof.
  induction l as [|c l IH]; intros fuel Hf H; [now destruct fuel|].
  destruct fuel as [|fuel]; [simpl in Hf; lia|].
  pose proof H as H'. simpl in H'. apply andb_true_iff in H' as [Hc Hl].
  cbn [parse]. rewrite (@parse_atom_plain c l Hc), (@parse_quant_plain l Hl).
  rewrite IH; [reflexivity | simpl in Hf; lia | exact Hl].
Qed.

Lemma m_pieces_literal (R : Type) l : forall s (k : gostring -> option R),
  m_pieces (map (fun c => (Lit c, One)) l) s k =
  if prefixb l s then k (skipn (length l) s) else None.
Proof.
  induction l as [|c l IH]; intros s k; simpl; [reflexivity|].
  unfold m_piece; simpl. destruct s as [|x s]; simpl; [reflexivity|].
  rewrite (N.eqb_sym c x). destruct (x =? c); simpl; [apply IH|reflexivity].
Qed.

(** An empty tag does not compile, whatever the field. *)
Lemma compile_field_empty_tag name : compile_field (field name EmptyString) = None.
Proof. reflexivity. Qed.

(** A count with a leading zero and the escape of a surrogate half are
    outside the fragment. *)
Lemma Parse_leading_zero : Parse (str "a{01}") = None /\ Parse (str "a{0}") = Some [(Lit 97, Exactly 0)].
Proof. split; vm_compute; reflexivity. Qed.

Lemma Unquote_surrogate : Unquote "\ud800" = None /\ Unquote "\u200c" = Some [8204].
Proof. split; vm_compute; reflexivity. Qed.

Lemma compile_field_Some f pattern ps :
  Unquote (ftag f) = Some pattern -> pattern <> [] -> Parse pattern = Some ps ->
  compile_field f =
  Some {| g_name := if isExported (fname f) then Some (fname f) else None;
          g_pat := ps |}.
Proof.
  unfold compile_field. intros -> Hne HP.
  destruct pattern as [|c pattern]; [congruence|]. now rewrite HP.
Qed.

Lemma str_nonempty tag : tag <> EmptyString -> str tag <> [].
Proof. destruct tag; [congruence | discriminate]. Qed.

(** X12: a tag of plain text that is not empty, on a field with an ASCII
    name, is matched to the letter: the field matches every input that
    begins with the text of the tag, takes just that text (and captures it
    when the field is exported), and matches no other input. *)
Theorem plain_tag_literal (name tag : string) :
  ascii_initial name = true ->
  tag <> EmptyString ->
  forallb plain_rune (str tag) = true ->
  exists g,
    compile_field (field name tag) = Some g /\
    (forall rest,
        match_here [g] (str tag ++ rest) =
        Some ((if isExported name then [(name, str tag)] else []), rest)) /\
    (forall s, prefixb (str tag) s = false -> match_here [g] s = None).
Proof.
  intros _ Hne H.
  eexists. split.
  { apply compile_field_Some with (pattern := str tag).
    - exact (@unquote_plain _ H).
    - now apply str_nonempty.
    - exact (@parse_plain _ _ (le_n _) H). }
  cbn [fname]. split.
  - intros rest. unfold match_here. cbn [m_groups g_pat].
    rewrite m_pieces_literal, prefixb_app.
    replace (skipn (length (str tag)) (str tag ++ rest)) with rest.
    2:{ rewrite skipn_app, skipn_all, Nat.sub_diag. reflexivity. }
    unfold add_capture. cbn [g_name]. rewrite slice_app.
    now destruct (isExported name).
  - intros s Hs. unfold match_here. cbn [m_groups g_pat].
    now rewrite m_pieces_literal, Hs.
Qed.

Lemma plain_tag_literal_witness :
  (ascii_initial "_" = true /\ " CALORIES BURNED "%string <> EmptyString /\
   forallb plain_rune (str " CALORIES BURNED ") = true) /\
  exists g,
    compile_field (field "_" " CALORIES BURNED ") = Some g /\
    (forall rest,
        match_here [g] (str " CALORIES BURNED " ++ rest) =
        Some ((if isExported "_" then [("_"%string, str " CALORIES BURNED ")]
               else []), rest)) /\
    (forall s, prefixb (str " CALORIES BURNED ") s = false ->
               match_here [g] s = None).
Proof.
  split; [split; [reflexivity | split; [discriminate | reflexivity]]|].
  apply plain_tag_literal; [reflexivity | discriminate | reflexivity].
Defined.

(** ** The sort and the calendar *)

Lemma StronglySorted_impl_In (A : Type) (R R' : A -> A -> Prop) l :
  (forall x y, In x l -> In y l -> R x y -> R' x y) ->
  StronglySorted R l -> StronglySorted R' l.
Proof.
  intros HR S. induction S as [|x l S IH F]; [constructor|].
  constructor.
  - apply IH. intros u v Hu Hv. apply HR; now right.
  - rewrite Forall_forall in *. intros y Hy. apply HR; [now left | now right |].
    now apply F.
Qed.

(** X7: when every record has a year of four digits and a month and a day of
    two, as in the example, a slice of fewer than seven records comes out
    of the sort in the order of the calendar. *)
Theorem sort_by_date_calendar (l : list snippet) :
  (length l < 7)%nat ->
  Forall well_formed l ->
  Forall (fun r => length (Year r) = 4%nat /\ length (Month r) = 2%nat /\
                   length (Day r) = 2%nat) l ->
  StronglySorted (fun u v => date_before v u = false) (sort_by_date l).
Proof.
  intros Hlen W L.
  pose proof (insertionSort_perm date_less l) as P.
  fold (sort_by_date l) in P.
  apply StronglySorted_impl_In
    with (R := fun u v => date_less v u = false);
    [|apply insertionSort_sorted; [apply date_less_asym | apply date_le_trans]].
  intros x y Hx Hy Hless.
  apply (Permutation_in _ P) in Hx. apply (Permutation_in _ P) in Hy.
  rewrite Forall_forall in W, L.
  destruct (L x Hx) as (X1 & X2 & X3). destruct (L y Hy) as (Y1 & Y2 & Y3).
  rewrite <- date_less_before; auto; congruence.
Qed.

Lemma sort_by_date_calendar_witness :
  ((length [record_of_month "10" "03"; record_of_month "09" "21"] < 7)%nat /\
   Forall well_formed [record_of_month "10" "03"; record_of_month "09" "21"] /\
   Forall (fun r => length (Year r) = 4%nat /\ length (Month r) = 2%nat /\
                    length (Day r) = 2%nat)
     [record_of_month "10" "03"; record_of_month "09" "21"]) /\
  StronglySorted (fun u v => date_before v u = false)
    (sort_by_date [record_of_month "10" "03"; record_of_month "09" "21"]).
Proof.
  assert (W : Forall well_formed
                [record_of_month "10" "03"; record_of_month "09" "21"]).
  { apply Forall_cons; [|apply Forall_cons; [|apply Forall_nil]];
      constructor; (split; [discriminate || reflexivity | reflexivity]). }
  assert (L : Forall (fun r => length (Year r) = 4%nat /\
                               length (Month r) = 2%nat /\
                               length (Day r) = 2%nat)
                [record_of_month "10" "03"; record_of_month "09" "21"]).
  { apply Forall_cons; [|apply Forall_cons; [|apply Forall_nil]];
      repeat split. }
  split; [split; [simpl; lia | split; [exact W | exact L]]|].
  apply sort_by_date_calendar; [simpl; lia | exact W | exact L].
Defined.

(** ** The separators of a match *)

(** X13: an input that matches holds every separator of the struct as it
    is written, except the one with the dot, of which it holds the text
    before the dot and the text after it: an input without one of these
    texts is not matched. *)
Theorem separators_necessary (s : gostring) (sep : gostring) :
  In sep separators \/ sep = str " AVG" \/ sep = str " HEART-RATE Peak HR: " ->
  sep <> str " AVG. HEART-RATE Peak HR: " ->
  infixb sep s = false -> match_snippet s = NotMatched.
Proof. apply separator_required. Qed.

Lemma separators_necessary_witness :
  ((In (str " CALORIES BURNED ") separators \/
    str " CALORIES BURNED " = str " AVG" \/
    str " CALORIES BURNED " = str " HEART-RATE Peak HR: ") /\
   str " CALORIES BURNED " <> str " AVG. HEART-RATE Peak HR: " /\
   infixb (str " CALORIES BURNED ") example_calories_misspelled = false) /\
  match_snippet example_calories_misspelled = NotMatched.
Proof.
  assert (H1 : In (str " CALORIES BURNED ") separators) by (vm_compute; tauto).
  assert (H2 : str " CALORIES BURNED " <> str " AVG. HEART-RATE Peak HR: ")
    by (vm_compute; discriminate).
  assert (H3 : infixb (str " CALORIES BURNED ") example_calories_misspelled = false)
    by (vm_compute; reflexivity).
  split; [split; [left; exact H1 | split; [exact H2 | exact H3]]|].
  apply (@separators_necessary example_calories_misspelled
           (str " CALORIES BURNED ")); [left; exact H1 | exact H2 | exact H3].
Defined.
